(** * sw_taskset: pinning compiler processes to CPU cores

    A shallow embedding of [sw_taskset.py] and the properties of its
    assignment tracking.

    The script is a single module: two global lists ([process_num], the
    core pool, and [using_process], the cores in use), three helpers
    ([getprocess_num], [get_pid], [tastset_pid]) and an endless polling
    loop whose body observes the live PIDs, rebuilds the PID -> core
    dictionary and binds every new PID with [taskset].

    Modelling choices.
    - Python integers are unbounded: PIDs and cores are [Z].
    - [old_pid_arr] / [cur_pid_arr] are dictionaries from PID to the
      one-field dictionary [{'pn': core}]: a [gmap Z entry], with [entry]
      a record with the field [pn].  The dictionaries are only ever tested
      for membership, read and written by key, never iterated.
    - [using_process] is a Python list, appended to at its end: a
      [list Z], duplicates and order included.
    - Code that may raise returns an [outcome]; [try]/[except] is
      [try_except].  A subscript [d[k]] raises [KeyError] on a missing key.
      The exceptions of the model are all subclasses of [Exception], so
      the bare [except:] of the first lookup and the [except Exception]
      of the second catch the same ones.
    - The operating system is a function from an executable name to the
      outcome of [map(int, check_output(["pidof", name]).split())].  The
      finer model [get_pid_text] starts from the text [check_output]
      returns and embeds [split()] and [int()] of Python 2 on byte strings;
      [parsed] turns it into such a function.
    - [tastset_pid] runs a shell command; the model records the command
      (core, PID) in the list of commands issued during the cycle, and
      [command_line] is the text it formats for the shell.
    - [print] output and [time.sleep] are left out.  Line 32 of the script
      reads [try] without its colon; the model reads it as [try:]. *)

From stdpp Require Import base gmap list strings sorting.
From Stdlib Require Import ZArith Lia.
From Stdlib Require Import Ascii.
From Stdlib Require DecimalString DecimalZ DecimalPos.

Local Open Scope Z_scope.

(** ** Exceptions and outcomes *)

Inductive exn : Type :=
  | CalledProcessError   (* pidof exited with a non-zero status *)
  | OSError              (* pidof could not be run *)
  | ValueError           (* int() on a token that is no number *)
  | KeyError.            (* d[k] on a missing key *)

Inductive outcome (A : Type) : Type :=
  | Return (a : A)
  | Raise (e : exn).

Arguments Return {A} a.
Arguments Raise {A} e.

(** Sequencing: an exception raised by the first statement skips the rest. *)
#[export] Instance outcome_bind : MBind outcome :=
  fun A B (k : A -> outcome B) (m : outcome A) =>
    match m with
    | Return a => k a
    | Raise e => Raise e
    end.

(** [try: body except: handler] *)
Definition try_except {A : Type} (body : outcome A) (handler : exn -> outcome A)
  : outcome A :=
  match body with
  | Return a => Return a
  | Raise e => handler e
  end.

(** ** Data *)

(** [{'pn': core}] *)
Record entry : Type := Entry { pn : Z }.

(** [d[k]] *)
Definition getitem (d : gmap Z entry) (k : Z) : outcome entry :=
  match d !! k with
  | Some e => Return e
  | None => Raise KeyError
  end.

(** The command [taskset -pc pcore pid]. *)
Record taskset_cmd : Type := Taskset { pcore : Z; pid_of : Z }.

(** The module's globals that survive from one cycle to the next. *)
Record globals : Type := Globals {
  process_num : list Z;
  using_process : list Z;
  old_pid_arr : gmap Z entry
}.

(** [process_num = [1,2,3,4,5,6,7,9,10,11,12,13,14,15]] *)
Definition source_pool : list Z := [1; 2; 3; 4; 5; 6; 7; 9; 10; 11; 12; 13; 14; 15].

(** The globals before the first cycle, for a given pool. *)
Definition startup (pool : list Z) : globals :=
  {| process_num := pool; using_process := []; old_pid_arr := ∅ |}.

(** ** getprocess_num *)

(** [for n in process_num: if n not in using_process: return n] and the
    final [return -1]. *)
Fixpoint first_unused (pool used : list Z) : Z :=
  match pool with
  | [] => -1
  | n :: rest => if bool_decide (n ∈ used) then first_unused rest used else n
  end.

(** [getprocess_num()] reads the globals [process_num] and
    [using_process]; they are its arguments here.  The length test comes
    first, as in the script. *)
Definition getprocess_num (pool used : list Z) : Z :=
  if Nat.eqb (length used) (length pool) then -1
  else first_unused pool used.

(** ** get_pid and the observation *)

Definition os_view : Type := string -> outcome (list Z).

Definition get_pid (os : os_view) (name : string) : outcome (list Z) := os name.

(** Lines 30 to 41, read with the colon of line 32 restored: the script
    has [try] there where the second block, at line 37, has [try:].  As
    written the script does not compile; see [cycle_as_written]. *)
Definition observe (os : os_view) : outcome (list Z) :=
  map_list1 ← try_except (get_pid os "cc1plus") (fun _ => Return []);
  map_list2 ← try_except (get_pid os "cc1") (fun _ => Return []);
  Return (map_list1 ++ map_list2).

(** ** tastset_pid *)

Definition tastset_pid (pn pid : Z) (issued : list taskset_cmd) : list taskset_cmd :=
  issued ++ [Taskset pn pid].

(** ** The loop body *)

(** First [for pid in map_list]: the PIDs already in [old_pid_arr]. *)
Fixpoint survivor_pass (old : gmap Z entry) (map_list : list Z)
    (used : list Z) (cur : gmap Z entry) : outcome (list Z * gmap Z entry) :=
  match map_list with
  | [] => Return (used, cur)
  | pid :: rest =>
      if bool_decide (pid ∈ dom old) then
        e1 ← getitem old pid;
        e2 ← getitem old pid;
        survivor_pass old rest (used ++ [pn e1]) (<[pid := Entry (pn e2)]> cur)
      else survivor_pass old rest used cur
  end.

(** What the second loop leaves behind. *)
Record pass_result : Type := PassResult {
  res_using : list Z;
  res_cur : gmap Z entry;
  res_issued : list taskset_cmd;
  res_rest : list Z      (* the part of map_list cut off by [break] *)
}.

(** Second [for pid in map_list]: the PIDs not in [old_pid_arr]. *)
Fixpoint newcomer_pass (pool : list Z) (old : gmap Z entry) (map_list : list Z)
    (used : list Z) (cur : gmap Z entry) (issued : list taskset_cmd) : pass_result :=
  match map_list with
  | [] => PassResult used cur issued []
  | pid :: rest =>
      if bool_decide (pid ∉ dom old) then
        let n := getprocess_num pool used in
        if Z.eqb n (-1) then PassResult used cur issued (pid :: rest)
        else
          let issued' := tastset_pid n pid issued in
          let cur' := <[pid := Entry n]> cur in
          newcomer_pass pool old rest (used ++ [n]) cur' issued'
      else newcomer_pass pool old rest used cur issued
  end.

(** Lines 44 to 58: rebuild [using_process] and the dictionary from
    [map_list], then [old_pid_arr = cur_pid_arr]. *)
Definition reconcile (g : globals) (map_list : list Z)
  : outcome (globals * list taskset_cmd) :=
  sp ← survivor_pass (old_pid_arr g) map_list [] ∅;
  let r := newcomer_pass (process_num g) (old_pid_arr g) map_list sp.1 sp.2 [] in
  Return ({| process_num := process_num g;
             using_process := res_using r;
             old_pid_arr := res_cur r |}, res_issued r).

(** One iteration of [while(True)]. *)
Definition cycle (os : os_view) (g : globals) : outcome (globals * list taskset_cmd) :=
  map_list ← observe os;
  reconcile g map_list.

(** The states the program can be in between two cycles. *)
Inductive reachable (pool : list Z) : globals -> Prop :=
  | reach_startup : reachable pool (startup pool)
  | reach_cycle g os g' issued :
      reachable pool g ->
      cycle os g = Return (g', issued) ->
      reachable pool g'.

(** ** What the two loops compute *)

Definition survivor (old : gmap Z entry) (pid : Z) : Prop := pid ∈ dom old.

Definition newcomer (old : gmap Z entry) (pid : Z) : Prop := pid ∉ dom old.

#[export] Instance survivor_dec old pid : Decision (survivor old pid).
Proof. unfold survivor. apply _. Defined.

#[export] Instance newcomer_dec old pid : Decision (newcomer old pid).
Proof. unfold newcomer. apply _. Defined.

(** What a lookup contributes to [map_list]. *)
Definition contribution (os : os_view) (name : string) : list Z :=
  match get_pid os name with
  | Return pids => pids
  | Raise _ => []
  end.

(** The cores appended to [using_process] by the first loop. *)
Definition survivor_cores (old : gmap Z entry) (map_list : list Z) : list Z :=
  omap (fun pid => pn <$> old !! pid) map_list.

(** The dictionary after the first loop. *)
Definition carried (old : gmap Z entry) (map_list : list Z) (cur : gmap Z entry)
  : gmap Z entry :=
  foldl (fun c pid => match old !! pid with
                      | Some e => <[pid := e]> c
                      | None => c
                      end) cur map_list.

(** The dictionary after a run of bind commands. *)
Definition bind_all (cur : gmap Z entry) (cmds : list taskset_cmd) : gmap Z entry :=
  foldl (fun c cmd => <[pid_of cmd := Entry (pcore cmd)]> c) cur cmds.

(** Every command of the run carries the core [getprocess_num] returned
    at its turn, and that core was not [-1]. *)
Fixpoint allocs (pool used : list Z) (cmds : list taskset_cmd) : Prop :=
  match cmds with
  | [] => True
  | cmd :: rest =>
      pcore cmd = getprocess_num pool used ∧ pcore cmd ≠ -1
      ∧ allocs pool (used ++ [pcore cmd]) rest
  end.

(** The state and the commands a cycle ends with. *)
Definition reconciled (g : globals) (map_list : list Z) : pass_result :=
  newcomer_pass (process_num g) (old_pid_arr g) map_list
    (survivor_cores (old_pid_arr g) map_list)
    (carried (old_pid_arr g) map_list ∅) [].

(** The globals with another in-use list. *)
Definition with_using (used : list Z) (g : globals) : globals :=
  {| process_num := process_num g;
     using_process := used;
     old_pid_arr := old_pid_arr g |}.

(** ** The invariant of the loop *)

(** No two PIDs of the dictionary hold the same core. *)
Definition injective_on_cores (cur : gmap Z entry) : Prop :=
  ∀ p q e e', cur !! p = Some e → cur !! q = Some e' → pn e = pn e' → p = q.

(** The link between the in-use list and the dictionary that the loop
    body keeps up: the cores of the dictionary are marked in use, no core
    is held twice, and the cores in use come from the pool. *)
Record tidy (pool used : list Z) (cur : gmap Z entry) : Prop := Tidy {
  tidy_held : ∀ p e, cur !! p = Some e → pn e ∈ used;
  tidy_inj : injective_on_cores cur;
  tidy_pool : ∀ c, c ∈ used → c ∈ pool
}.

Definition wf (pool : list Z) (g : globals) : Prop :=
  process_num g = pool ∧ tidy pool (using_process g) (old_pid_arr g).

(** ** The words of the specification *)

(** Every core of the pool is in use. *)
Definition exhausted (pool used : list Z) : Prop := ∀ n, n ∈ pool → n ∈ used.

(** [n] is the lowest core of the pool that is not in use. *)
Definition lowest_unused (pool used : list Z) (n : Z) : Prop :=
  n ∈ pool ∧ (n ∉ used) ∧ ∀ m, m ∈ pool → m ∉ used → n ≤ m.

(** The allocator's contract: [-1] exactly when the pool is exhausted,
    the lowest unused core otherwise. *)
Definition allocates_lowest (pool used : list Z) : Prop :=
  (getprocess_num pool used = -1 ↔ exhausted pool used)
  ∧ (getprocess_num pool used ≠ -1 →
     lowest_unused pool used (getprocess_num pool used)).

(** Two in-use lists that mark the same set of cores. *)
Definition same_cores (u1 u2 : list Z) : Prop := ∀ c, c ∈ u1 ↔ c ∈ u2.

(** The in-use list marks exactly the cores held in the dictionary. *)
Definition in_use_matches (g : globals) : Prop :=
  ∀ c, c ∈ using_process g ↔ ∃ p e, old_pid_arr g !! p = Some e ∧ pn e = c.

(** ** States and observations of the examples *)

(** An operating system view in which [cc1plus] runs under the given PIDs
    and [pidof cc1] finds nothing. *)
Definition os_of (pids : list Z) : os_view :=
  fun name => if String.eqb name "cc1plus" then Return pids else Raise CalledProcessError.

(** A dictionary written as a list of (PID, core) pairs. *)
Definition dict (l : list (Z * Z)) : gmap Z entry :=
  list_to_map ((fun kv => (kv.1, Entry kv.2)) <$> l).

(** The program's state after a first cycle that saw PIDs 100 and 101. *)
Definition two_bound : globals :=
  {| process_num := source_pool;
     using_process := [1; 2];
     old_pid_arr := dict [(100, 1); (101, 2)] |}.

(** After a cycle that saw PID 100 twice: core 1 is in use and held by
    no PID. *)
Definition orphan_state : globals :=
  {| process_num := source_pool;
     using_process := [1; 2];
     old_pid_arr := dict [(100, 2)] |}.

(** The program's state after a first cycle that saw PIDs 100 to 107. *)
Definition eight_bound : globals :=
  {| process_num := source_pool;
     using_process := [1; 2; 3; 4; 5; 6; 7; 9];
     old_pid_arr := dict [(100, 1); (101, 2); (102, 3); (103, 4);
                          (104, 5); (105, 6); (106, 7); (107, 9)] |}.

(** An observation that lists the PIDs 100 to 106 twice, misses 107 and
    shows the new PID 200. *)
Definition doubled_observation : list Z :=
  [100; 100; 101; 101; 102; 102; 103; 103; 104; 104; 105; 105; 106; 106; 200].

(** What the first loop leaves in [using_process] on that observation. *)
Definition doubled_cores : list Z := [1; 1; 2; 2; 3; 3; 4; 4; 5; 5; 6; 6; 7; 7].

(** A two-core program whose cores are both held. *)
Definition both_held : globals :=
  {| process_num := [1; 2];
     using_process := [1; 2];
     old_pid_arr := dict [(100, 1); (101, 2)] |}.

(** ** The text behind [get_pid] and [tastset_pid] *)

(** The white space of [str.split()]: blank, tab, line feed, vertical
    tab, form feed and carriage return. *)
Definition is_space (a : Ascii.ascii) : bool :=
  Ascii.eqb a " "%char || Ascii.eqb a "009"%char || Ascii.eqb a "010"%char
  || Ascii.eqb a "011"%char || Ascii.eqb a "012"%char || Ascii.eqb a "013"%char.

Definition not_space (a : Ascii.ascii) : bool := negb (is_space a).

Definition is_digit (a : Ascii.ascii) : bool :=
  match a with
  | "0" | "1" | "2" | "3" | "4" | "5" | "6" | "7" | "8" | "9" => true
  | _ => false
  end%char.

Fixpoint all_chars (P : Ascii.ascii -> bool) (s : string) : bool :=
  match s with
  | EmptyString => true
  | String a rest => P a && all_chars P rest
  end.

(** [s.split()]: the maximal runs of characters that are not white space,
    in order.  [word] is the run read so far. *)
Fixpoint split_from (word : string) (s : string) : list string :=
  match s with
  | EmptyString =>
      match word with
      | EmptyString => []
      | _ => [word]
      end
  | String a rest =>
      if is_space a then
        match word with
        | EmptyString => split_from "" rest
        | _ => word :: split_from "" rest
        end
      else split_from (word +:+ String a "") rest
  end.

Definition py_split (s : string) : list string := split_from "" s.

(** [int(tok)] for a token of [split()], which holds no white space: an
    optional sign and at least one decimal digit, anything else raises
    [ValueError]. *)
Definition py_int (tok : string) : outcome Z :=
  match tok with
  | EmptyString => Raise ValueError
  | String a digits =>
      if Ascii.eqb a "+"%char then
        match DecimalString.NilZero.uint_of_string digits with
        | Some d => Return (Z.of_uint d)
        | None => Raise ValueError
        end
      else
        match DecimalString.NilZero.int_of_string tok with
        | Some d => Return (Z.of_int d)
        | None => Raise ValueError
        end
  end.

(** [map(int, toks)], a list in Python 2, built from left to right. *)
Fixpoint map_int (toks : list string) : outcome (list Z) :=
  match toks with
  | [] => Return []
  | tok :: rest =>
      n ← py_int tok;
      ns ← map_int rest;
      Return (n :: ns)
  end.

(** What [check_output(["pidof", name])] gives: the text [pidof] wrote,
    or the exception raised. *)
Definition shell_view : Type := string -> outcome string.

(** [get_pid] down to the text: [map(int, check_output(...).split())]. *)
Definition get_pid_text (sh : shell_view) (name : string) : outcome (list Z) :=
  out ← sh name;
  map_int (py_split out).

(** A shell in which every [pidof] writes the same text. *)
Definition shell_of (out : string) : shell_view := fun _ => Return out.

(** The view of the operating system that a shell gives. *)
Definition parsed (sh : shell_view) : os_view := get_pid_text sh.

(** [str(n)], which is what ['{}'.format(n)] puts in for an integer. *)
Definition str_int (n : Z) : string :=
  DecimalString.NilZero.string_of_int (Z.to_int n).

(** [cmd = 'taskset -pc {} {}'.format(pcore, pid)] *)
Definition command_line (c : taskset_cmd) : string :=
  "taskset -pc " +:+ str_int (pcore c) +:+ " " +:+ str_int (pid_of c).

(** The line [pidof] writes for the given PIDs: decimal numbers with a
    blank between them and a line feed at the end. *)
Definition pidof_line (pids : list Z) : string :=
  String.concat " " (str_int <$> pids) +:+ String "010"%char "".

(** The characters of [str(n)]. *)
Definition number_char (a : Ascii.ascii) : bool :=
  is_digit a || Ascii.eqb a "-"%char.

(** A token of [split()]: not empty, no white space. *)
Definition is_token (t : string) : Prop :=
  t ≠ "" ∧ all_chars not_space t = true.

(** The characters of a command line: lower-case letters, digits, the
    minus sign and the blank. *)
Definition plain_char (a : Ascii.ascii) : bool :=
  is_digit a || Ascii.eqb a "-"%char || Ascii.eqb a " "%char
  || (Nat.leb 97 (Ascii.nat_of_ascii a) && Nat.leb (Ascii.nat_of_ascii a) 122).

(** ** The script as written *)

(** The header of a compound statement: its line, its keyword and
    whether the line ends in the colon Python asks for. *)
Record header : Type := Header { h_line : nat; h_keyword : string; h_colon : bool }.

#[export] Instance header_eq_dec : EqDecision header.
Proof. solve_decision. Defined.

(** The headers of [sw_taskset.py], in the order of the file. *)
Definition script_headers : list header :=
  [Header 8 "def" true; Header 10 "if" true; Header 12 "for" true;
   Header 13 "if" true; Header 17 "def" true; Header 20 "def" true;
   Header 29 "while" true; Header 32 "try" false; Header 34 "except" true;
   Header 37 "try" true; Header 39 "except" true; Header 42 "if" true;
   Header 46 "for" true; Header 47 "if" true; Header 50 "for" true;
   Header 51 "if" true; Header 53 "if" true].

(** Python compiles the whole module before it runs a statement of it:
    the first header without its colon is a [SyntaxError]. *)
Fixpoint bad_header (hs : list header) : option nat :=
  match hs with
  | [] => None
  | h :: rest => if h_colon h then bad_header rest else Some (h_line h)
  end.

Inductive script_run (A : Type) : Type :=
  | SyntaxErrorAt (line : nat)
  | Executes (o : outcome A).

Arguments SyntaxErrorAt {A} line.
Arguments Executes {A} o.

(** A cycle of the script whose headers are [hs]. *)
Definition cycle_as_written (hs : list header) (os : os_view) (g : globals)
  : script_run (globals * list taskset_cmd) :=
  match bad_header hs with
  | Some line => SyntaxErrorAt line
  | None => Executes (cycle os g)
  end.

(** The headers with the colon put at the end of the given line. *)
Definition restore_colon (line : nat) (hs : list header) : list header :=
  (fun h => if Nat.eqb (h_line h) line
            then Header (h_line h) (h_keyword h) true else h) <$> hs.

(** ** Observations with a PID listed twice *)

(** Thirteen new PIDs and then PID 200 twice, for fourteen cores. *)
Definition crowded_observation : list Z :=
  [100; 101; 102; 103; 104; 105; 106; 107; 108; 109; 110; 111; 112; 200; 200].

(** PID 100 twice and six more new PIDs. *)
Definition twice_then_six : list Z := [100; 100; 101; 102; 103; 104; 105; 106].

(** The state that observation leaves: core 1 is held by no PID. *)
Definition core_one_orphaned : globals :=
  {| process_num := source_pool;
     using_process := [1; 2; 3; 4; 5; 6; 7; 9];
     old_pid_arr := dict [(100, 2); (101, 3); (102, 4); (103, 5);
                          (104, 6); (105, 7); (106, 9)] |}.

(** Each of its seven PIDs twice, and the new PID 200. *)
Definition seven_twice_and_new : list Z :=
  [100; 100; 101; 101; 102; 102; 103; 103; 104; 104; 105; 105; 106; 106; 200].

(** ** The allocator *)

Section allocator.
Implicit Types pool used : list Z.

Lemma first_unused_found pool used n :
  first_unused pool used = n → n ≠ -1 → n ∈ pool ∧ n ∉ used.
Proof.
  induction pool as [|m pool IH]; simpl; [congruence|].
  case_bool_decide as Hm; intros Hn Hne.
  - destruct (IH Hn Hne). split; [by right | done].
  - subst. split; [by left | done].
Qed.

Lemma first_unused_none pool used :
  first_unused pool used = -1 → -1 ∉ pool → ∀ n, n ∈ pool → n ∈ used.
Proof.
  induction pool as [|m pool IH]; simpl; intros Hr Hfree n Hn.
  - by apply elem_of_nil in Hn.
  - apply not_elem_of_cons in Hfree as [Hm Hfree].
    case_bool_decide as Hin; [|congruence].
    apply elem_of_cons in Hn as [->|Hn]; [done | by apply IH].
Qed.

Lemma first_unused_exhausted pool used :
  (∀ n, n ∈ pool → n ∈ used) → first_unused pool used = -1.
Proof.
  induction pool as [|m pool IH]; simpl; intros Hall; [done|].
  rewrite bool_decide_eq_true_2 by (apply Hall; by left).
  apply IH. intros n Hn. apply Hall. by right.
Qed.

Lemma first_unused_lowest pool used c :
  StronglySorted Z.lt pool → c ∈ pool → c ∉ used →
  first_unused pool used ∈ pool ∧ (first_unused pool used ∉ used)
  ∧ first_unused pool used ≤ c.
Proof.
  induction 1 as [|m pool Hs IH Hlt]; simpl; intros Hc Hfree.
  - by apply elem_of_nil in Hc.
  - rewrite Forall_forall in Hlt.
    case_bool_decide as Hin.
    + apply elem_of_cons in Hc as [->|Hc]; [done|].
      destruct (IH Hc Hfree) as (? & ? & ?). split_and!; [by right | done | done].
    + split_and!; [by left | done |].
      apply elem_of_cons in Hc as [->|Hc]; [lia|]. specialize (Hlt _ Hc). lia.
Qed.

(** A duplicate-free list of pool cores as long as the pool holds them all. *)
Lemma full_length_exhausted pool used :
  NoDup used → (∀ c, c ∈ used → c ∈ pool) →
  length used = length pool → ∀ n, n ∈ pool → n ∈ used.
Proof.
  intros Hnd Hsub Hlen n Hn.
  assert (used ⊆+ pool) as Hms by by apply NoDup_submseteq.
  apply submseteq_length_Permutation in Hms; [|by rewrite Hlen].
  by rewrite Hms.
Qed.

Lemma getprocess_num_found pool used n :
  getprocess_num pool used = n → n ≠ -1 → n ∈ pool ∧ n ∉ used.
Proof.
  unfold getprocess_num. destruct (Nat.eqb _ _); [congruence|].
  apply first_unused_found.
Qed.

Lemma getprocess_num_exhausted pool used :
  (∀ n, n ∈ pool → n ∈ used) → getprocess_num pool used = -1.
Proof.
  intros Hall. unfold getprocess_num. destruct (Nat.eqb _ _); [done|].
  by apply first_unused_exhausted.
Qed.

Lemma getprocess_num_none pool used :
  NoDup used → (∀ c, c ∈ used → c ∈ pool) → -1 ∉ pool →
  getprocess_num pool used = -1 → ∀ n, n ∈ pool → n ∈ used.
Proof.
  intros Hnd Hsub Hfree. unfold getprocess_num.
  destruct (Nat.eqb _ _) eqn:Hlen; intros Hr.
  - apply Nat.eqb_eq in Hlen. by apply full_length_exhausted.
  - by apply first_unused_none.
Qed.

Lemma getprocess_num_lowest pool used c :
  StronglySorted Z.lt pool → NoDup used → (∀ x, x ∈ used → x ∈ pool) →
  c ∈ pool → c ∉ used →
  getprocess_num pool used = first_unused pool used
  ∧ getprocess_num pool used ∈ pool ∧ (getprocess_num pool used ∉ used)
  ∧ getprocess_num pool used ≤ c.
Proof.
  intros Hs Hnd Hsub Hc Hfree.
  assert (getprocess_num pool used = first_unused pool used) as ->.
  { unfold getprocess_num. destruct (Nat.eqb _ _) eqn:Hlen; [|done].
    apply Nat.eqb_eq in Hlen. destruct Hfree.
    by apply (full_length_exhausted pool). }
  split; [done|]. by apply first_unused_lowest.
Qed.
End allocator.

(** ** The two passes over the observed list *)

Section passes.
Implicit Types (old cur : gmap Z entry) (used pool l : list Z).

Lemma survivor_pass_eq old l used cur :
  survivor_pass old l used cur
  = Return (used ++ survivor_cores old l, carried old l cur).
Proof.
  revert used cur. induction l as [|pid l IH]; intros used cur; simpl.
  - by rewrite app_nil_r.
  - unfold survivor_cores, getitem. simpl.
    destruct (bool_decide (pid ∈ dom old)) eqn:Hin.
    + apply bool_decide_eq_true in Hin. apply elem_of_dom in Hin as [[c] Hc].
      rewrite Hc. simpl. rewrite IH. by rewrite <- app_assoc.
    + apply bool_decide_eq_false in Hin. apply not_elem_of_dom in Hin.
      rewrite Hin. simpl. apply IH.
Qed.

Lemma carried_cons old pid l cur :
  carried old (pid :: l) cur
  = carried old l (match old !! pid with Some e => <[pid := e]> cur | None => cur end).
Proof. reflexivity. Qed.

Lemma carried_lookup old l cur p :
  carried old l cur !! p
  = if bool_decide (p ∈ l ∧ p ∈ dom old) then old !! p else cur !! p.
Proof.
  revert cur. induction l as [|pid l IH]; intros cur.
  - rewrite bool_decide_eq_false_2; [done|]. intros [H _]. by apply elem_of_nil in H.
  - rewrite carried_cons, IH.
    destruct (decide (p ∈ l ∧ p ∈ dom old)) as [[Hl Hd]|Hn].
    { rewrite !bool_decide_eq_true_2; [done | split; [by right | done] | done]. }
    rewrite (bool_decide_eq_false_2 _ Hn).
    destruct (decide (p = pid)) as [->|Hne].
    + destruct (old !! pid) as [e|] eqn:He.
      * rewrite lookup_insert_eq, bool_decide_eq_true_2; [done|].
        split; [by left|]. apply elem_of_dom. eauto.
      * rewrite bool_decide_eq_false_2; [done|].
        intros [_ Hd]. apply elem_of_dom in Hd as [? ?]. congruence.
    + assert ((match old !! pid with Some e => <[pid := e]> cur | None => cur end) !! p
              = cur !! p) as ->.
      { destruct (old !! pid); [by rewrite lookup_insert_ne | done]. }
      rewrite bool_decide_eq_false_2; [done|].
      intros [Hl Hd]. apply elem_of_cons in Hl as [?|?]; [done|]. by apply Hn.
Qed.

Lemma carried_empty_lookup old l p :
  carried old l ∅ !! p = if bool_decide (p ∈ l) then old !! p else None.
Proof.
  rewrite carried_lookup, lookup_empty.
  repeat case_bool_decide; try done; try tauto.
  symmetry. apply not_elem_of_dom. tauto.
Qed.

Lemma survivor_cores_elem old l c :
  c ∈ survivor_cores old l ↔ ∃ p e, p ∈ l ∧ old !! p = Some e ∧ pn e = c.
Proof.
  unfold survivor_cores. rewrite list_elem_of_omap. split.
  - intros (p & Hp & Hc). destruct (old !! p) as [e|] eqn:He; [|done].
    simpl in Hc. exists p, e. naive_solver.
  - intros (p & e & Hp & He & Hc). exists p. rewrite He. naive_solver.
Qed.

Lemma newcomer_pass_trace pool old l used cur issued :
  ∃ processed new,
    l = processed ++ res_rest (newcomer_pass pool old l used cur issued)
    ∧ res_issued (newcomer_pass pool old l used cur issued) = issued ++ new
    ∧ res_using (newcomer_pass pool old l used cur issued) = used ++ (pcore <$> new)
    ∧ res_cur (newcomer_pass pool old l used cur issued) = bind_all cur new
    ∧ pid_of <$> new = filter (newcomer old) processed
    ∧ allocs pool used new
    ∧ (res_rest (newcomer_pass pool old l used cur issued) = []
       ∨ ∃ q rest,
           res_rest (newcomer_pass pool old l used cur issued) = q :: rest
           ∧ newcomer old q
           ∧ getprocess_num pool
               (res_using (newcomer_pass pool old l used cur issued)) = -1).
Proof.
  revert used cur issued.
  induction l as [|pid l IH]; intros used cur issued.
  - exists [], []. simpl. rewrite !app_nil_r. split_and!; auto.
  - cbn [newcomer_pass].
    destruct (bool_decide (pid ∉ dom old)) eqn:Hnew.
    + apply bool_decide_eq_true in Hnew.
      destruct (Z.eqb (getprocess_num pool used) (-1)) eqn:Hn.
      * apply Z.eqb_eq in Hn.
        exists [], []. simpl. rewrite !app_nil_r.
        split_and!; auto. right. exists pid, l. auto.
      * apply Z.eqb_neq in Hn. cbn zeta.
        destruct (IH (used ++ [getprocess_num pool used])
                    (<[pid := Entry (getprocess_num pool used)]> cur)
                    (tastset_pid (getprocess_num pool used) pid issued))
          as (processed & new & Hl & Hi & Hu & Hc & Hp & Ha & Hr).
        exists (pid :: processed), (Taskset (getprocess_num pool used) pid :: new).
        split_and!; auto.
        -- simpl. by rewrite <- Hl.
        -- rewrite Hi. unfold tastset_pid. by rewrite <- app_assoc.
        -- rewrite Hu. simpl. by rewrite <- app_assoc.
        -- rewrite fmap_cons, filter_cons_True by done. simpl. by rewrite Hp.
        -- simpl. auto.
    + apply bool_decide_eq_false in Hnew.
      destruct (IH used cur issued)
        as (processed & new & Hl & Hi & Hu & Hc & Hp & Ha & Hr).
      exists (pid :: processed), new.
      split_and!; auto.
      -- simpl. by rewrite <- Hl.
      -- rewrite filter_cons_False; [done|]. unfold newcomer. tauto.
Qed.


Lemma reconcile_eq g l :
  reconcile g l
  = Return ({| process_num := process_num g;
               using_process := res_using (reconciled g l);
               old_pid_arr := res_cur (reconciled g l) |},
            res_issued (reconciled g l)).
Proof. unfold reconcile. rewrite survivor_pass_eq. reflexivity. Qed.

Lemma observe_eq os :
  observe os = Return (contribution os "cc1plus" ++ contribution os "cc1").
Proof.
  unfold observe, contribution.
  destruct (get_pid os "cc1plus"); destruct (get_pid os "cc1"); reflexivity.
Qed.

Lemma bind_all_app cur a b : bind_all cur (a ++ b) = bind_all (bind_all cur a) b.
Proof. apply foldl_app. Qed.

Lemma bind_all_lookup_other cur new p :
  p ∉ pid_of <$> new → bind_all cur new !! p = cur !! p.
Proof.
  revert cur. induction new as [|cmd new IH]; intros cur Hp; [done|].
  rewrite fmap_cons in Hp. apply not_elem_of_cons in Hp as [Hne Hp].
  change (bind_all cur (cmd :: new))
    with (bind_all (<[pid_of cmd := Entry (pcore cmd)]> cur) new).
  rewrite IH by done. by rewrite lookup_insert_ne.
Qed.

Lemma bind_all_lookup_last cur n1 cmd n2 :
  pid_of cmd ∉ pid_of <$> n2 →
  bind_all cur (n1 ++ cmd :: n2) !! pid_of cmd = Some (Entry (pcore cmd)).
Proof.
  intros Hlast. rewrite bind_all_app.
  change (bind_all (bind_all cur n1) (cmd :: n2))
    with (bind_all (<[pid_of cmd := Entry (pcore cmd)]> (bind_all cur n1)) n2).
  rewrite bind_all_lookup_other by done. apply lookup_insert_eq.
Qed.

Lemma bind_all_lookup_Some cur new p e :
  bind_all cur new !! p = Some e →
  cur !! p = Some e ∨ ∃ cmd, cmd ∈ new ∧ pid_of cmd = p ∧ pcore cmd = pn e.
Proof.
  revert cur. induction new as [|cmd new IH]; intros cur He; [by left|].
  change (bind_all cur (cmd :: new))
    with (bind_all (<[pid_of cmd := Entry (pcore cmd)]> cur) new) in He.
  apply IH in He as [He|(cmd' & Hin & Hp & Hc)].
  - destruct (decide (pid_of cmd = p)) as [<-|Hne].
    + rewrite lookup_insert_eq in He. injection He as <-.
      right. exists cmd. split_and!; [by left | done | done].
    + rewrite lookup_insert_ne in He by done. by left.
  - right. exists cmd'. split_and!; [by right | done | done].
Qed.

Lemma allocs_fresh pool used new c :
  allocs pool used new → c ∈ pcore <$> new → c ∈ pool ∧ (c ∉ used) ∧ c ≠ -1.
Proof.
  revert used. induction new as [|cmd new IH]; intros used Ha Hc.
  - by apply elem_of_nil in Hc.
  - destruct Ha as (Hn & Hne & Ha). rewrite fmap_cons in Hc.
    symmetry in Hn. destruct (getprocess_num_found _ _ _ Hn Hne) as [Hp Hf].
    apply elem_of_cons in Hc as [->|Hc]; [done|].
    destruct (IH _ Ha Hc) as (? & Hnot & ?). split_and!; [done| |done].
    intros Hin. apply Hnot. apply elem_of_app. by left.
Qed.

Lemma allocs_NoDup pool used new :
  allocs pool used new → NoDup used → NoDup (used ++ (pcore <$> new)).
Proof.
  revert used. induction new as [|cmd new IH]; intros used Ha Hnd.
  - by rewrite app_nil_r.
  - destruct Ha as (Hn & Hne & Ha). rewrite fmap_cons.
    symmetry in Hn. destruct (getprocess_num_found _ _ _ Hn Hne) as [Hp Hf].
    change (used ++ pcore cmd :: (pcore <$> new))
      with (used ++ [pcore cmd] ++ (pcore <$> new)).
    rewrite app_assoc. apply IH; [done|].
    apply NoDup_app. split_and!; [done | | apply NoDup_singleton].
    intros x Hx Hx'. apply list_elem_of_singleton in Hx'. by subst.
Qed.

Lemma tidy_bind pool used cur p n :
  tidy pool used cur → n ∈ pool → n ∉ used →
  tidy pool (used ++ [n]) (<[p := Entry n]> cur).
Proof.
  intros [Hheld Hinj Hpool] Hn Hfree. split.
  - intros q e. destruct (decide (p = q)) as [->|Hne].
    + rewrite lookup_insert_eq. intros [= <-]. apply elem_of_app. right. by left.
    + rewrite lookup_insert_ne by done. intros He. apply elem_of_app. left. eauto.
  - intros q1 q2 e1 e2.
    destruct (decide (p = q1)) as [<-|Hne1]; destruct (decide (p = q2)) as [<-|Hne2];
      rewrite ?lookup_insert_eq, ?lookup_insert_ne by done; try done.
    + intros [= <-] H2 Heq. simpl in Heq. destruct Hfree. rewrite Heq. eauto.
    + intros H1 [= <-] Heq. simpl in Heq. destruct Hfree. rewrite <- Heq. eauto.
    + apply Hinj.
  - intros c Hc. apply elem_of_app in Hc as [Hc|Hc]; [eauto|].
    apply list_elem_of_singleton in Hc. by subst.
Qed.

Lemma tidy_allocs pool used cur new :
  tidy pool used cur → allocs pool used new →
  tidy pool (used ++ (pcore <$> new)) (bind_all cur new).
Proof.
  revert used cur. induction new as [|cmd new IH]; intros used cur Ht Ha.
  - simpl. by rewrite app_nil_r.
  - destruct Ha as (Hn & Hne & Ha). rewrite fmap_cons.
    symmetry in Hn. destruct (getprocess_num_found _ _ _ Hn Hne) as [Hp Hf].
    change (used ++ pcore cmd :: (pcore <$> new))
      with (used ++ [pcore cmd] ++ (pcore <$> new)).
    rewrite app_assoc. apply IH; [|done]. by apply tidy_bind.
Qed.

Lemma tidy_survivors pool old l :
  injective_on_cores old → (∀ p e, old !! p = Some e → pn e ∈ pool) →
  tidy pool (survivor_cores old l) (carried old l ∅).
Proof.
  intros Hinj Hpool. split.
  - intros p e. rewrite carried_empty_lookup. case_bool_decide; [|done].
    intros He. apply survivor_cores_elem. eauto.
  - intros p q e e'. rewrite !carried_empty_lookup.
    repeat case_bool_decide; try done. apply Hinj.
  - intros c (p & e & _ & He & <-)%survivor_cores_elem. eauto.
Qed.

Lemma reconciled_tidy pool g l :
  wf pool g →
  tidy pool (res_using (reconciled g l)) (res_cur (reconciled g l)).
Proof.
  intros [Hp [Hheld Hinj Hpool]]. unfold reconciled.
  destruct (newcomer_pass_trace (process_num g) (old_pid_arr g) l
              (survivor_cores (old_pid_arr g) l) (carried (old_pid_arr g) l ∅) [])
    as (processed & new & _ & _ & -> & -> & _ & Ha & _).
  rewrite Hp in Ha. apply tidy_allocs; [|done].
  apply tidy_survivors; eauto.
Qed.

Lemma startup_wf pool : wf pool (startup pool).
Proof.
  split; [done|]. split; simpl.
  - intros p e. by rewrite lookup_empty.
  - intros p q e e'. by rewrite lookup_empty.
  - intros c Hc. by apply elem_of_nil in Hc.
Qed.

Lemma cycle_eq os g :
  cycle os g
  = reconcile g (contribution os "cc1plus" ++ contribution os "cc1").
Proof. unfold cycle. by rewrite observe_eq. Qed.

Lemma reachable_wf pool g : reachable pool g → wf pool g.
Proof.
  induction 1 as [|g os g' issued Hr IH Hc]; [apply startup_wf|].
  rewrite cycle_eq, reconcile_eq in Hc. injection Hc as <- _.
  split; [apply IH|]. simpl. by apply reconciled_tidy.
Qed.

End passes.

(** ** Properties of the assignment tracking *)

Lemma reconciled_trace g l :
  ∃ processed new,
    l = processed ++ res_rest (reconciled g l)
    ∧ res_issued (reconciled g l) = new
    ∧ res_using (reconciled g l)
      = survivor_cores (old_pid_arr g) l ++ (pcore <$> new)
    ∧ res_cur (reconciled g l) = bind_all (carried (old_pid_arr g) l ∅) new
    ∧ pid_of <$> new = filter (newcomer (old_pid_arr g)) processed
    ∧ allocs (process_num g) (survivor_cores (old_pid_arr g) l) new
    ∧ (res_rest (reconciled g l) = []
       ∨ ∃ q rest, res_rest (reconciled g l) = q :: rest
                   ∧ newcomer (old_pid_arr g) q
                   ∧ getprocess_num (process_num g) (res_using (reconciled g l)) = -1).
Proof.
  unfold reconciled.
  destruct (newcomer_pass_trace (process_num g) (old_pid_arr g) l
              (survivor_cores (old_pid_arr g) l) (carried (old_pid_arr g) l ∅) [])
    as (processed & new & H).
  exists processed, new. exact H.
Qed.

Lemma observed_reconcile os g map_list :
  observe os = Return map_list → cycle os g = reconcile g map_list.
Proof. unfold cycle. by intros ->. Qed.

Lemma new_pids_are_newcomers old processed (new : list taskset_cmd) p :
  pid_of <$> new = filter (newcomer old) processed →
  p ∈ pid_of <$> new → newcomer old p ∧ p ∈ processed.
Proof. intros ->. apply list_elem_of_filter. Qed.

(** Discharges [reachable] for a state one cycle after a reachable one. *)
Ltac one_cycle pids before :=
  eapply (reach_cycle _ _ (os_of pids)); [before | vm_compute; reflexivity].

(** C1. No double binding: in every state the program reaches, two
    distinct PIDs of the assignment never hold the same core. *)
Theorem no_double_binding pool g p q e e' :
  reachable pool g →
  old_pid_arr g !! p = Some e → old_pid_arr g !! q = Some e' →
  p ≠ q → pn e ≠ pn e'.
Proof.
  intros Hr Hp Hq Hne Heq. apply reachable_wf in Hr as [_ Ht].
  apply Hne. exact (tidy_inj _ _ _ Ht p q e e' Hp Hq Heq).
Qed.

Lemma no_double_binding_witness :
  reachable source_pool two_bound
  ∧ old_pid_arr two_bound !! 100 = Some (Entry 1)
  ∧ old_pid_arr two_bound !! 101 = Some (Entry 2)
  ∧ pn (Entry 1) ≠ pn (Entry 2).
Proof.
  assert (reachable source_pool two_bound) as Hr.
  { one_cycle [100; 101] ltac:(apply reach_startup). }
  split_and!; [exact Hr | reflexivity | reflexivity |].
  apply (no_double_binding source_pool two_bound 100 101 _ _ Hr);
    [reflexivity | reflexivity | lia].
Defined.

(** C3. Survivor stability: a PID that holds a core and is observed again
    keeps that very core after the cycle, and no bind command is issued
    for it. *)
Theorem survivor_stability g os map_list p e :
  observe os = Return map_list →
  old_pid_arr g !! p = Some e → p ∈ map_list →
  ∃ g' issued,
    cycle os g = Return (g', issued)
    ∧ old_pid_arr g' !! p = Some e
    ∧ p ∉ pid_of <$> issued.
Proof.
  intros Hobs He Hp. rewrite (observed_reconcile _ _ _ Hobs), reconcile_eq.
  eexists _, _. split; [reflexivity|]. simpl.
  destruct (reconciled_trace g map_list)
    as (processed & new & _ & -> & _ & -> & Hpids & _).
  assert (p ∉ pid_of <$> new) as Hnot.
  { intros [Hnew _]%(new_pids_are_newcomers _ _ _ _ Hpids).
    apply Hnew. apply elem_of_dom. eauto. }
  split; [|done].
  rewrite bind_all_lookup_other by done.
  rewrite carried_empty_lookup. by rewrite bool_decide_eq_true_2.
Qed.

Lemma survivor_stability_witness :
  observe (os_of [101; 102]) = Return [101; 102]
  ∧ old_pid_arr two_bound !! 101 = Some (Entry 2)
  ∧ 101 ∈ [101; 102]
  ∧ ∃ g' issued,
      cycle (os_of [101; 102]) two_bound = Return (g', issued)
      ∧ old_pid_arr g' !! 101 = Some (Entry 2)
      ∧ 101 ∉ pid_of <$> issued.
Proof.
  assert (101 ∈ [101; 102]) as Hin by (by left).
  split_and!; [reflexivity | reflexivity | exact Hin |].
  apply (survivor_stability two_bound (os_of [101; 102]) [101; 102] 101 (Entry 2));
    [reflexivity | reflexivity | exact Hin].
Defined.

(** C5. Core pool bound: in every state the program reaches the pool is
    the one it started with, and every core of the assignment and of the
    in-use list is a member of it. *)
Theorem core_pool_bound pool g :
  reachable pool g →
  process_num g = pool
  ∧ (∀ p e, old_pid_arr g !! p = Some e → pn e ∈ pool)
  ∧ (∀ c, c ∈ using_process g → c ∈ pool).
Proof.
  intros [Hp [Hheld _ Hpool]]%reachable_wf. split_and!; eauto.
Qed.

Lemma core_pool_bound_witness :
  reachable source_pool two_bound
  ∧ process_num two_bound = source_pool
  ∧ (∀ p e, old_pid_arr two_bound !! p = Some e → pn e ∈ source_pool)
  ∧ (∀ c, c ∈ using_process two_bound → c ∈ source_pool).
Proof.
  assert (reachable source_pool two_bound) as Hr.
  { one_cycle [100; 101] ltac:(apply reach_startup). }
  split; [exact Hr|]. exact (core_pool_bound source_pool two_bound Hr).
Defined.

(** ** The allocator's contract *)

Lemma source_pool_sorted : StronglySorted Z.lt source_pool.
Proof. unfold source_pool. repeat (constructor; [|repeat constructor; lia]). constructor. Qed.

Lemma source_pool_no_sentinel : -1 ∉ source_pool.
Proof. apply (bool_decide_unpack _). vm_compute. exact I. Qed.

Lemma first_unused_ext pool u1 u2 :
  same_cores u1 u2 → first_unused pool u1 = first_unused pool u2.
Proof.
  intros Hsame. induction pool as [|n pool IH]; simpl; [done|].
  rewrite IH. apply (f_equal (fun b : bool => if b then _ else _)).
  apply bool_decide_ext, Hsame.
Qed.

Lemma getprocess_num_contract pool used :
  StronglySorted Z.lt pool → -1 ∉ pool →
  NoDup used → (∀ c, c ∈ used → c ∈ pool) →
  allocates_lowest pool used.
Proof.
  intros Hs Hfree Hnd Hsub. unfold allocates_lowest, exhausted, lowest_unused.
  split; [split|].
  - by apply getprocess_num_none.
  - apply getprocess_num_exhausted.
  - intros Hne.
    destruct (getprocess_num_found pool used _ eq_refl Hne) as [Hin Hout].
    split_and!; [done | done |]. intros m Hm Hm'.
    by destruct (getprocess_num_lowest pool used m) as (_ & _ & _ & ?).
Qed.

Lemma getprocess_num_set pool u1 u2 :
  NoDup u1 → NoDup u2 → same_cores u1 u2 →
  getprocess_num pool u1 = getprocess_num pool u2.
Proof.
  intros Hnd1 Hnd2 Hsame. unfold getprocess_num.
  rewrite (first_unused_ext pool u1 u2 Hsame).
  assert (u1 ≡ₚ u2) as Hperm by by apply NoDup_Permutation.
  by rewrite (Permutation_length Hperm).
Qed.

(** The in-use list of fourteen entries over seven cores arises in a run
    of the program. *)
Example doubled_cores_arise :
  reachable source_pool eight_bound
  ∧ survivor_pass (old_pid_arr eight_bound) doubled_observation [] ∅
    = Return (doubled_cores,
              dict [(100, 1); (101, 2); (102, 3); (103, 4);
                    (104, 5); (105, 6); (106, 7)]).
Proof.
  split; [|vm_compute; reflexivity].
  one_cycle [100; 101; 102; 103; 104; 105; 106; 107] ltac:(apply reach_startup).
Qed.

(** C2, as the code has it.  On an in-use list without duplicates whose
    cores all come from the pool, [getprocess_num] returns [-1] exactly
    when every core of the pool is in use and the lowest unused core of the
    pool otherwise, and its result depends on the set of cores in use
    only. *)
Theorem allocator_lowest_unused used :
  NoDup used → (∀ c, c ∈ used → c ∈ source_pool) →
  allocates_lowest source_pool used
  ∧ ∀ used', NoDup used' → same_cores used used' →
      getprocess_num source_pool used' = getprocess_num source_pool used.
Proof.
  intros Hnd Hsub. split.
  - apply getprocess_num_contract;
      auto using source_pool_sorted, source_pool_no_sentinel.
  - intros used' Hnd' Hsame. symmetry. by apply getprocess_num_set.
Qed.

Lemma allocator_lowest_unused_witness :
  NoDup [1; 2] ∧ (∀ c, c ∈ [1; 2] → c ∈ source_pool)
  ∧ allocates_lowest source_pool [1; 2]
  ∧ ∀ used', NoDup used' → same_cores [1; 2] used' →
      getprocess_num source_pool used' = getprocess_num source_pool [1; 2].
Proof.
  assert (NoDup [1; 2]) as Hnd by (apply (bool_decide_unpack _); vm_compute; exact I).
  assert (∀ c, c ∈ [1; 2] → c ∈ source_pool) as Hsub.
  { intros c [->|[->|[]%elem_of_nil]%elem_of_cons]%elem_of_cons;
      apply (bool_decide_unpack _); vm_compute; exact I. }
  split; [exact Hnd|]. split; [exact Hsub|].
  exact (allocator_lowest_unused [1; 2] Hnd Hsub).
Defined.

(** C2, as stated, fails.  With fourteen entries that mark only the cores
    1 to 7, [getprocess_num] returns [-1] although cores 9 to 15 are
    free; and [[1]] marks the same cores as fourteen times [1], yet the
    two results differ. *)
Lemma allocator_contract_counterexample :
  ¬ allocates_lowest source_pool doubled_cores
  ∧ same_cores [1] (replicate 14 1)
  ∧ getprocess_num source_pool [1] ≠ getprocess_num source_pool (replicate 14 1).
Proof.
  split_and!.
  - intros [[Hex _] _]. specialize (Hex eq_refl 9).
    assert (9 ∈ source_pool) as Hin by (apply (bool_decide_unpack _); vm_compute; exact I).
    apply Hex in Hin. revert Hin. apply (bool_decide_unpack _). vm_compute. exact I.
  - intros c. simpl. rewrite !elem_of_cons. rewrite !elem_of_nil. tauto.
  - vm_compute. discriminate.
Qed.

(** ** The observer *)

(** With the colon of line 32 restored, the observation always yields a
    list, a lookup that raises contributes nothing to it, the other
    lookup's PIDs are in it all the same, and the cycle built on it returns
    normally. *)
Theorem observer_tolerates_failed_lookups os :
  observe os = Return (contribution os "cc1plus" ++ contribution os "cc1")
  ∧ (∀ name e, get_pid os name = Raise e → contribution os name = [])
  ∧ (∀ name pids, get_pid os name = Return pids → contribution os name = pids)
  ∧ ∀ g, ∃ g' issued, cycle os g = Return (g', issued).
Proof.
  split_and!.
  - apply observe_eq.
  - intros name e H. unfold contribution. by rewrite H.
  - intros name pids H. unfold contribution. by rewrite H.
  - intros g. rewrite cycle_eq, reconcile_eq. eauto.
Qed.

Lemma observer_tolerates_failed_lookups_witness :
  get_pid (os_of [100; 101]) "cc1" = Raise CalledProcessError
  ∧ observe (os_of [100; 101]) = Return [100; 101]
  ∧ ∃ g' issued, cycle (os_of [100; 101]) (startup source_pool) = Return (g', issued).
Proof.
  destruct (observer_tolerates_failed_lookups (os_of [100; 101]))
    as (Hobs & _ & _ & Hcycle).
  split_and!; [reflexivity | exact Hobs | exact (Hcycle (startup source_pool))].
Defined.

(** C7. The script as written does not tolerate a failed lookup: line 32
    reads [try] without its colon, so whatever the operating system
    answers the script stops with a syntax error at line 32 and no cycle
    runs.  The second block, at line 37, has its colon; with the colon
    restored at line 32 the script runs the cycle of [cycle]. *)
Theorem first_lookup_try_lacks_colon os g :
  cycle_as_written script_headers os g = SyntaxErrorAt 32
  ∧ Header 32 "try" false ∈ script_headers
  ∧ Header 37 "try" true ∈ script_headers
  ∧ cycle_as_written (restore_colon 32 script_headers) os g = Executes (cycle os g).
Proof.
  split_and!; [reflexivity | | | reflexivity];
    apply (bool_decide_unpack _); vm_compute; exact I.
Qed.

(** ** The scenario of the specification *)

(** C9. With the pool 1, 2, 3 and nothing retained, observing 100, 101,
    102 binds them to 1, 2, 3 in that order; observing 101, 102, 103 next
    keeps 101 on 2 and 102 on 3 and gives 103 the released core 1. *)
Theorem scenario_release_and_reuse :
  cycle (os_of [100; 101; 102]) (startup [1; 2; 3])
  = Return ({| process_num := [1; 2; 3];
               using_process := [1; 2; 3];
               old_pid_arr := dict [(100, 1); (101, 2); (102, 3)] |},
            [Taskset 1 100; Taskset 2 101; Taskset 3 102])
  ∧ cycle (os_of [101; 102; 103])
      {| process_num := [1; 2; 3];
         using_process := [1; 2; 3];
         old_pid_arr := dict [(100, 1); (101, 2); (102, 3)] |}
    = Return ({| process_num := [1; 2; 3];
                 using_process := [2; 3; 1];
                 old_pid_arr := dict [(101, 2); (102, 3); (103, 1)] |},
              [Taskset 1 103]).
Proof. split; vm_compute; reflexivity. Qed.

(** ** Exhaustion and the retained state *)

Lemma bind_all_is_Some cur (new : list taskset_cmd) p :
  is_Some (cur !! p) ∨ p ∈ pid_of <$> new → is_Some (bind_all cur new !! p).
Proof.
  revert cur. induction new as [|cmd new IH]; intros cur H.
  - destruct H as [H|H]; [done | by apply elem_of_nil in H].
  - change (bind_all cur (cmd :: new))
      with (bind_all (<[pid_of cmd := Entry (pcore cmd)]> cur) new).
    apply IH. destruct (decide (pid_of cmd = p)) as [<-|Hne].
    + left. rewrite lookup_insert_eq. eauto.
    + rewrite lookup_insert_ne by done. destruct H as [H|H]; [by left|].
      rewrite fmap_cons in H. apply elem_of_cons in H as [?|?]; [congruence | by right].
Qed.

Lemma last_occurrence (new : list taskset_cmd) p :
  p ∈ pid_of <$> new →
  ∃ n1 cmd n2, new = n1 ++ cmd :: n2 ∧ pid_of cmd = p ∧ (p ∉ pid_of <$> n2).
Proof.
  induction new as [|cmd new IH]; intros Hp; [by apply elem_of_nil in Hp|].
  destruct (decide (p ∈ pid_of <$> new)) as [Hin|Hout].
  - destruct (IH Hin) as (n1 & cmd' & n2 & -> & Hc & Hn).
    by exists (cmd :: n1), cmd', n2.
  - rewrite fmap_cons in Hp. apply elem_of_cons in Hp as [->|?]; [|done].
    by exists [], cmd, new.
Qed.

(** An entry of the dictionary after the second loop is either carried
    over untouched or written by the last command issued for its PID. *)
Lemma bind_all_lookup_inv cur (new : list taskset_cmd) p e :
  bind_all cur new !! p = Some e →
  ((p ∉ pid_of <$> new) ∧ cur !! p = Some e)
  ∨ ∃ n1 cmd n2, new = n1 ++ cmd :: n2 ∧ pid_of cmd = p
                 ∧ (p ∉ pid_of <$> n2) ∧ e = Entry (pcore cmd).
Proof.
  intros He. destruct (decide (p ∈ pid_of <$> new)) as [Hin|Hout].
  - right. destruct (last_occurrence _ _ Hin) as (n1 & cmd & n2 & -> & <- & Hn).
    rewrite bind_all_lookup_last in He by done. injection He as <-.
    by exists n1, cmd, n2.
  - left. by rewrite bind_all_lookup_other in He.
Qed.

Lemma allocs_cores_NoDup pool used new :
  allocs pool used new → NoDup (pcore <$> new).
Proof.
  revert used. induction new as [|cmd new IH]; intros used Ha; [constructor|].
  destruct Ha as (Hn & Hne & Ha). rewrite fmap_cons. constructor; [|by eapply IH].
  intros Hin. destruct (allocs_fresh _ _ _ _ Ha Hin) as (_ & Hnot & _).
  apply Hnot. apply elem_of_app. right. by left.
Qed.


(** C8, as the code has it.  Every cycle replaces the retained state by
    one built from the observed list and the old dictionary alone: the
    outcome does not depend on the in-use list left by the cycle before,
    the new dictionary holds observed PIDs only, and its cores are all
    marked in use; when no newcomer is listed twice, the in-use list marks
    exactly the cores of the new dictionary. *)
Theorem retained_state_rebuilt g os map_list :
  observe os = Return map_list →
  ∃ g' issued,
    cycle os g = Return (g', issued)
    ∧ (∀ used, cycle os (with_using used g) = Return (g', issued))
    ∧ (∀ p, is_Some (old_pid_arr g' !! p) → p ∈ map_list)
    ∧ (∀ p e, old_pid_arr g' !! p = Some e → pn e ∈ using_process g')
    ∧ (NoDup (filter (newcomer (old_pid_arr g)) map_list) → in_use_matches g').
Proof.
  intros Hobs. rewrite (observed_reconcile _ _ _ Hobs), reconcile_eq.
  eexists _, _. split; [reflexivity|].
  destruct (reconciled_trace g map_list)
    as (processed & new & Hl & Hi & Hu & Hc & Hp & Ha & Hr).
  assert (∀ p e, res_cur (reconciled g map_list) !! p = Some e →
                 pn e ∈ res_using (reconciled g map_list)) as Hheld.
  { intros p e. rewrite Hu, Hc. intros He.
    apply bind_all_lookup_Some in He as [He|(cmd & Hin & _ & <-)].
    - apply elem_of_app. left. revert He. rewrite carried_empty_lookup.
      case_bool_decide; [|done]. intros He. apply survivor_cores_elem. eauto.
    - apply elem_of_app. right. by apply list_elem_of_fmap_2. }
  split_and!.
  - intros used. by rewrite (observed_reconcile _ _ _ Hobs), reconcile_eq.
  - intros p [e He]. simpl in He. rewrite Hc in He.
    apply bind_all_lookup_inv in He as [[_ He]|(n1 & cmd & n2 & Hn & <- & _)].
    + revert He. rewrite carried_empty_lookup. by case_bool_decide.
    + assert (pid_of cmd ∈ pid_of <$> new) as Hin.
      { rewrite Hn, fmap_app, fmap_cons. apply elem_of_app. right. by left. }
      apply (new_pids_are_newcomers _ _ _ _ Hp) in Hin as [_ Hin].
      rewrite Hl. apply elem_of_app. by left.
  - exact Hheld.
  - intros Hnd c. simpl. split; [|intros (p & e & He & <-); eauto].
    rewrite Hu, Hc. intros [Hs|Hn]%elem_of_app.
    + apply survivor_cores_elem in Hs as (p & e & Hin & He & <-).
      exists p, e. split; [|done]. rewrite bind_all_lookup_other.
      * rewrite carried_empty_lookup. by rewrite bool_decide_eq_true_2.
      * intros [Hnew _]%(new_pids_are_newcomers _ _ _ _ Hp).
        apply Hnew. apply elem_of_dom. eauto.
    + apply list_elem_of_fmap in Hn as (cmd & -> & Hin).
      apply list_elem_of_split in Hin as (n1 & n2 & ->).
      exists (pid_of cmd), (Entry (pcore cmd)). split; [|done].
      apply bind_all_lookup_last.
      assert (NoDup (pid_of <$> n1 ++ cmd :: n2)) as Hnd'.
      { rewrite Hp. rewrite Hl, filter_app in Hnd.
        by apply NoDup_app in Hnd as (? & _ & _). }
      rewrite fmap_app, fmap_cons in Hnd'.
      apply NoDup_app in Hnd' as (_ & _ & Hnd').
      by apply NoDup_cons in Hnd' as [? _].
Qed.

Lemma retained_state_rebuilt_witness :
  observe (os_of [101; 102]) = Return [101; 102]
  ∧ NoDup (filter (newcomer (old_pid_arr two_bound)) [101; 102])
  ∧ ∃ g' issued,
      cycle (os_of [101; 102]) two_bound = Return (g', issued)
      ∧ (∀ used, cycle (os_of [101; 102]) (with_using used two_bound)
                 = Return (g', issued))
      ∧ (∀ p, is_Some (old_pid_arr g' !! p) → p ∈ [101; 102])
      ∧ (∀ p e, old_pid_arr g' !! p = Some e → pn e ∈ using_process g')
      ∧ in_use_matches g'.
Proof.
  assert (NoDup (filter (newcomer (old_pid_arr two_bound)) [101; 102])) as Hnd
    by (apply (bool_decide_unpack _); vm_compute; exact I).
  split_and!; [reflexivity | exact Hnd |].
  destruct (retained_state_rebuilt two_bound (os_of [101; 102]) [101; 102] eq_refl)
    as (g' & issued & Hcycle & Hfresh & Hkeys & Hheld & Hmatch).
  exists g', issued.
  split_and!; [exact Hcycle | exact Hfresh | exact Hkeys | exact Hheld |].
  exact (Hmatch Hnd).
Defined.

(** C8, as stated, fails.  Starting from nothing, a cycle that observes
    PID 100 twice binds it to core 1 and then to core 2; the dictionary
    keeps core 2 only, yet core 1 stays in the in-use list. *)
Lemma in_use_matches_counterexample :
  cycle (os_of [100; 100]) (startup source_pool)
  = Return (orphan_state, [Taskset 1 100; Taskset 2 100])
  ∧ ¬ in_use_matches orphan_state.
Proof.
  split; [vm_compute; reflexivity|].
  intros H. destruct (proj1 (H 1)) as (p & e & He & Hc); [by left|].
  unfold orphan_state, dict in He. simpl in He.
  destruct (decide (p = 100)) as [->|Hne].
  - rewrite lookup_insert_eq in He. injection He as <-. discriminate.
  - by rewrite lookup_insert_ne, lookup_empty in He.
Qed.

(** ** A newcomer listed more than once *)

Lemma orphaned_core pool used cur i1 cmd i2 :
  (∀ p e, cur !! p = Some e → pn e ∈ used) →
  allocs pool used (i1 ++ cmd :: i2) →
  pid_of cmd ∈ pid_of <$> i2 →
  ∀ q e, bind_all cur (i1 ++ cmd :: i2) !! q = Some e → pn e ≠ pcore cmd.
Proof.
  intros Hheld Ha Hagain q e He Heq.
  assert (pcore cmd ∉ used) as Hfresh.
  { eapply (allocs_fresh _ _ _ _ Ha).
    rewrite fmap_app, fmap_cons. apply elem_of_app. right. by left. }
  apply allocs_cores_NoDup in Ha. rewrite fmap_app, fmap_cons in Ha.
  apply NoDup_app in Ha as (_ & Hsep & [Hlater _]%NoDup_cons).
  change (i1 ++ cmd :: i2) with (i1 ++ [cmd] ++ i2) in He.
  rewrite app_assoc, bind_all_app in He.
  apply bind_all_lookup_inv in He as [[Hq He]|(n1 & cmd' & n2 & -> & _ & _ & ->)].
  - rewrite bind_all_app in He.
    change (bind_all (bind_all cur i1) [cmd])
      with (<[pid_of cmd := Entry (pcore cmd)]> (bind_all cur i1)) in He.
    rewrite lookup_insert_ne in He by (intros <-; done).
    apply bind_all_lookup_Some in He as [He|(cmd' & Hin & _ & Hc)].
    + apply Hfresh. rewrite <- Heq. eauto.
    + apply (Hsep (pcore cmd)); [|by left].
      rewrite <- Heq, <- Hc. by apply list_elem_of_fmap_2.
  - simpl in Heq. apply Hlater. rewrite <- Heq.
    rewrite fmap_app, fmap_cons. apply elem_of_app. right. by left.
Qed.

(** ** Release on exit *)

Lemma survivor_cores_cons old pid l :
  survivor_cores old (pid :: l)
  = match old !! pid with
    | Some e => pn e :: survivor_cores old l
    | None => survivor_cores old l
    end.
Proof. unfold survivor_cores. simpl. by destruct (old !! pid). Qed.

Lemma survivor_cores_NoDup old l :
  injective_on_cores old →
  NoDup (filter (survivor old) l) → NoDup (survivor_cores old l).
Proof.
  intros Hinj. induction l as [|pid l IH]; intros Hnd; [constructor|].
  rewrite survivor_cores_cons. destruct (old !! pid) as [e|] eqn:He.
  - rewrite filter_cons_True in Hnd by (apply elem_of_dom; eauto).
    apply NoDup_cons in Hnd as [Hnot Hnd]. constructor; [|by apply IH].
    intros (q & e' & Hq & He' & Hc)%survivor_cores_elem.
    apply Hnot. apply list_elem_of_filter.
    assert (q = pid) as -> by exact (Hinj _ _ _ _ He' He Hc).
    split; [|done]. apply elem_of_dom. eauto.
  - rewrite filter_cons_False in Hnd; [by apply IH|].
    unfold survivor. by apply not_elem_of_dom.
Qed.

(** While a core of the pool is free, no higher core is handed out. *)
Lemma allocs_before pool used new c :
  StronglySorted Z.lt pool →
  NoDup used → (∀ x, x ∈ used → x ∈ pool) → c ∈ pool → c ∉ used →
  allocs pool used new →
  ∀ i1 cmd i2, new = i1 ++ cmd :: i2 → c < pcore cmd → c ∈ pcore <$> i1.
Proof.
  intros Hs. revert used.
  induction new as [|cmd0 new IH]; intros used Hnd Hsub Hc Hfree Ha i1 cmd i2 Hsplit Hlt.
  { by destruct i1. }
  destruct Ha as (Hn & Hne & Ha).
  destruct (getprocess_num_lowest pool used c) as (_ & Hin & Hout & Hle); try done.
  rewrite <- Hn in Hin, Hout, Hle.
  destruct i1 as [|cmd1 i1]; simplify_eq/=; [lia|].
  destruct (decide (pcore cmd1 = c)) as [->|Hdiff]; [by left|].
  right.
  eapply (IH (used ++ [pcore cmd1])); [| | done | | done | reflexivity | done].
  - apply NoDup_app. split_and!; [done | | apply NoDup_singleton].
    intros x Hx Hx'%list_elem_of_singleton. by subst.
  - intros x [?|Hx%list_elem_of_singleton]%elem_of_app; subst; eauto.
  - intros [?|?%list_elem_of_singleton]%elem_of_app; done.
Qed.

Lemma released_entry pool g map_list p e :
  wf pool g → old_pid_arr g !! p = Some e → p ∉ map_list →
  res_cur (reconciled g map_list) !! p = None
  ∧ pn e ∈ pool
  ∧ (pn e ∉ survivor_cores (old_pid_arr g) map_list).
Proof.
  intros [Hp [Hheld Hinj Hpool]] He Hgone.
  destruct (reconciled_trace g map_list)
    as (processed & new & Hl & _ & _ & Hc & Hpids & _).
  split_and!.
  - rewrite Hc. rewrite bind_all_lookup_other.
    + rewrite carried_empty_lookup. by rewrite bool_decide_eq_false_2.
    + intros [_ Hproc]%(new_pids_are_newcomers _ _ _ _ Hpids).
      apply Hgone. rewrite Hl. apply elem_of_app. by left.
  - eauto.
  - intros (q & e' & Hq & He' & Hcore)%survivor_cores_elem.
    assert (q = p) as -> by exact (Hinj _ _ _ _ He' He Hcore). done.
Qed.

Lemma released_core_allocated pool g map_list c :
  StronglySorted Z.lt pool → -1 ∉ pool →
  wf pool g →
  c ∈ pool → c ∉ survivor_cores (old_pid_arr g) map_list →
  NoDup (filter (survivor (old_pid_arr g)) map_list) →
  lowest_unused pool (survivor_cores (old_pid_arr g) map_list)
    (getprocess_num pool (survivor_cores (old_pid_arr g) map_list))
  ∧ (∀ i1 cmd i2, res_issued (reconciled g map_list) = i1 ++ cmd :: i2 →
       c < pcore cmd → c ∈ pcore <$> i1)
  ∧ ((∃ q, q ∈ map_list ∧ res_cur (reconciled g map_list) !! q = None) →
     c ∈ res_using (reconciled g map_list)).
Proof.
  intros Hs Hsent Hwf Hin Hfree Hnd.
  pose proof (reconciled_tidy pool g map_list Hwf) as [_ _ Hpool'].
  destruct Hwf as [Hp [Hheld Hinj Hpool]].
  destruct (reconciled_trace g map_list)
    as (processed & new & Hl & Hi & Hu & Hc & Hpids & Ha & Hr).
  rewrite Hp in Ha, Hr.
  set (used := survivor_cores (old_pid_arr g) map_list) in *.
  assert (NoDup used) as Hndu by by apply survivor_cores_NoDup.
  assert (∀ x, x ∈ used → x ∈ pool) as Hsub.
  { intros x (q & e' & _ & He' & <-)%survivor_cores_elem. eauto. }
  split_and!.
  - destruct (getprocess_num_lowest pool used c) as (_ & ? & ? & _); try done.
    split_and!; try done. intros m Hm Hm'.
    by destruct (getprocess_num_lowest pool used m) as (_ & _ & _ & ?).
  - rewrite Hi. by eapply allocs_before.
  - intros (q & Hq & Hnone). rewrite Hu.
    destruct Hr as [Hrest|(q' & rest' & Hrest & _ & Hstop)].
    + rewrite Hrest, app_nil_r in Hl. subst processed.
      assert (is_Some (res_cur (reconciled g map_list) !! q)) as [? Hsome];
        [|congruence].
      rewrite Hc. apply bind_all_is_Some.
      destruct (decide (newcomer (old_pid_arr g) q)) as [Hn|Hn].
      * right. rewrite Hpids. by apply list_elem_of_filter.
      * left. rewrite carried_empty_lookup, bool_decide_eq_true_2 by done.
        apply elem_of_dom. unfold newcomer in Hn. by apply dec_stable.
    + rewrite <- Hu.
      apply (getprocess_num_none pool); try done.
      rewrite Hu. by eapply allocs_NoDup.
Qed.

(** C4, as the code has it.  When a PID that holds core [c] is missing
    from the observation, it is absent from the new dictionary and the
    first loop does not mark [c] in use.  When moreover the observation
    lists no surviving PID twice, [c] is there for the cycle's newcomers:
    [getprocess_num] returns the lowest unused core, no command binds a
    core above [c] before one binds [c], and a PID of the observation is
    left without an entry only once [c] is in use again. *)
Theorem release_on_exit g os map_list p e :
  reachable source_pool g →
  observe os = Return map_list →
  old_pid_arr g !! p = Some e → p ∉ map_list →
  ∃ g' issued,
    cycle os g = Return (g', issued)
    ∧ old_pid_arr g' !! p = None
    ∧ pn e ∈ source_pool
    ∧ (pn e ∉ survivor_cores (old_pid_arr g) map_list)
    ∧ (NoDup (filter (survivor (old_pid_arr g)) map_list) →
       lowest_unused source_pool (survivor_cores (old_pid_arr g) map_list)
         (getprocess_num source_pool (survivor_cores (old_pid_arr g) map_list))
       ∧ (∀ i1 cmd i2, issued = i1 ++ cmd :: i2 →
            pn e < pcore cmd → pn e ∈ pcore <$> i1)
       ∧ ((∃ q, q ∈ map_list ∧ old_pid_arr g' !! q = None) →
          pn e ∈ using_process g')).
Proof.
  intros Hr%reachable_wf Hobs He Hgone.
  rewrite (observed_reconcile _ _ _ Hobs), reconcile_eq.
  eexists _, _. split; [reflexivity|]. simpl.
  destruct (released_entry source_pool g map_list p e Hr He Hgone)
    as (Hnone & Hin & Hfree).
  split_and!; try done. intros Hnd.
  apply released_core_allocated;
    auto using source_pool_sorted, source_pool_no_sentinel.
Qed.

Lemma release_on_exit_witness :
  reachable source_pool two_bound
  ∧ observe (os_of [101; 102]) = Return [101; 102]
  ∧ old_pid_arr two_bound !! 100 = Some (Entry 1)
  ∧ (100 ∉ [101; 102])
  ∧ NoDup (filter (survivor (old_pid_arr two_bound)) [101; 102])
  ∧ ∃ g' issued,
      cycle (os_of [101; 102]) two_bound = Return (g', issued)
      ∧ old_pid_arr g' !! 100 = None
      ∧ 1 ∈ source_pool
      ∧ (1 ∉ survivor_cores (old_pid_arr two_bound) [101; 102])
      ∧ lowest_unused source_pool (survivor_cores (old_pid_arr two_bound) [101; 102])
          (getprocess_num source_pool
             (survivor_cores (old_pid_arr two_bound) [101; 102]))
      ∧ (∀ i1 cmd i2, issued = i1 ++ cmd :: i2 →
           1 < pcore cmd → 1 ∈ pcore <$> i1)
      ∧ ((∃ q, q ∈ [101; 102] ∧ old_pid_arr g' !! q = None) →
         1 ∈ using_process g').
Proof.
  assert (reachable source_pool two_bound) as Hr.
  { one_cycle [100; 101] ltac:(apply reach_startup). }
  assert (100 ∉ [101; 102]) as Hgone
    by (apply (bool_decide_unpack _); vm_compute; exact I).
  assert (NoDup (filter (survivor (old_pid_arr two_bound)) [101; 102])) as Hnd
    by (apply (bool_decide_unpack _); vm_compute; exact I).
  split_and!; [exact Hr | reflexivity | reflexivity | exact Hgone | exact Hnd |].
  destruct (release_on_exit two_bound (os_of [101; 102]) [101; 102] 100 (Entry 1)
              Hr eq_refl eq_refl Hgone)
    as (g' & issued & Hcycle & Hnone & Hin & Hfree & Hrest).
  exists g', issued.
  split_and!; [exact Hcycle | exact Hnone | exact Hin | exact Hfree | ..];
    apply (Hrest Hnd).
Defined.

(** C4, as stated, fails.  PIDs 100 to 107 hold the cores 1 to 7 and 9.
    The next observation misses 107, lists each of 100 to 106 twice and
    shows the new PID 200: the first loop leaves fourteen entries in the
    in-use list, [getprocess_num] returns [-1], and 200 stays unbound
    while core 9 is free. *)
Lemma release_on_exit_counterexample :
  reachable source_pool eight_bound
  ∧ old_pid_arr eight_bound !! 107 = Some (Entry 9)
  ∧ (107 ∉ doubled_observation)
  ∧ survivor_cores (old_pid_arr eight_bound) doubled_observation = doubled_cores
  ∧ getprocess_num source_pool doubled_cores = -1
  ∧ ∃ g', cycle (os_of doubled_observation) eight_bound = Return (g', [])
          ∧ (9 ∉ using_process g')
          ∧ old_pid_arr g' !! 200 = None.
Proof.
  split_and!.
  - one_cycle [100; 101; 102; 103; 104; 105; 106; 107] ltac:(apply reach_startup).
  - reflexivity.
  - apply (bool_decide_unpack _). vm_compute. exact I.
  - vm_compute. reflexivity.
  - reflexivity.
  - eexists. split_and!; [vm_compute; reflexivity | |].
    + apply (bool_decide_unpack _). vm_compute. exact I.
    + vm_compute. reflexivity.
Qed.

(** ** A newcomer listed more than once, in full *)

(** C10, as the code has it.  A newcomer listed more than once gets one
    bind command for each of its occurrences in the part of the list
    processed before [getprocess_num] returns [-1], and none for the
    later ones; every command has a core of its own; the dictionary keeps
    the core of the last command for the PID; the core of every earlier
    command stays in the in-use list and is held by no PID.  In the next
    cycle the first loop never marks such a core, and when that cycle
    lists no surviving PID twice the core is there for its newcomers:
    [getprocess_num] returns the lowest unused core, no command binds a
    core above it before one binds it, and a PID is left without an entry
    only once it is in use again. *)
Theorem repeated_newcomer os g :
  ∃ map_list g' issued processed rest,
    observe os = Return map_list
    ∧ cycle os g = Return (g', issued)
    ∧ map_list = processed ++ rest
    ∧ (rest = []
       ∨ ∃ q rest', rest = q :: rest' ∧ newcomer (old_pid_arr g) q
                    ∧ getprocess_num (process_num g) (using_process g') = -1)
    ∧ pid_of <$> issued = filter (newcomer (old_pid_arr g)) processed
    ∧ allocs (process_num g) (survivor_cores (old_pid_arr g) map_list) issued
    ∧ NoDup (pcore <$> issued)
    ∧ ∀ i1 cmd i2, issued = i1 ++ cmd :: i2 →
        pcore cmd ∈ process_num g
        ∧ pcore cmd ∈ using_process g'
        ∧ ((pid_of cmd ∉ pid_of <$> i2) →
           old_pid_arr g' !! pid_of cmd = Some (Entry (pcore cmd)))
        ∧ (pid_of cmd ∈ pid_of <$> i2 →
           (∀ q e, old_pid_arr g' !! q = Some e → pn e ≠ pcore cmd)
           ∧ (∀ next, pcore cmd ∉ survivor_cores (old_pid_arr g') next)
           ∧ (reachable source_pool g →
              ∀ os' next,
                observe os' = Return next →
                NoDup (filter (survivor (old_pid_arr g')) next) →
                ∃ g'' issued',
                  cycle os' g' = Return (g'', issued')
                  ∧ lowest_unused source_pool
                      (survivor_cores (old_pid_arr g') next)
                      (getprocess_num source_pool
                         (survivor_cores (old_pid_arr g') next))
                  ∧ (∀ j1 cmd' j2, issued' = j1 ++ cmd' :: j2 →
                       pcore cmd < pcore cmd' → pcore cmd ∈ pcore <$> j1)
                  ∧ ((∃ q, q ∈ next ∧ old_pid_arr g'' !! q = None) →
                     pcore cmd ∈ using_process g''))).
Proof.
  rewrite cycle_eq, observe_eq, reconcile_eq.
  set (l := contribution os "cc1plus" ++ contribution os "cc1").
  destruct (reconciled_trace g l)
    as (processed & new & Hl & Hi & Hu & Hc & Hp & Ha & Hr).
  eexists l, _, _, processed, (res_rest (reconciled g l)).
  do 2 (split; [reflexivity|]).
  set (g' := {| process_num := process_num g;
                using_process := res_using (reconciled g l);
                old_pid_arr := res_cur (reconciled g l) |}).
  simpl. rewrite Hi.
  split_and!; try done.
  - by eapply allocs_cores_NoDup.
  - intros i1 cmd i2 ->.
    assert (pcore cmd ∈ pcore <$> i1 ++ cmd :: i2) as Hin.
    { rewrite fmap_app, fmap_cons. apply elem_of_app. right. by left. }
    assert (∀ q e, carried (old_pid_arr g) l ∅ !! q = Some e →
                   pn e ∈ survivor_cores (old_pid_arr g) l) as Hheld.
    { intros q e. rewrite carried_empty_lookup. case_bool_decide; [|done].
      intros He. apply survivor_cores_elem. eauto. }
    destruct (allocs_fresh _ _ _ _ Ha Hin) as (Hpool & _ & _).
    split_and!.
    + done.
    + rewrite Hu. apply elem_of_app. by right.
    + rewrite Hc. apply bind_all_lookup_last.
    + intros Hagain.
      pose proof (orphaned_core _ _ _ _ _ _ Hheld Ha Hagain) as Horphan.
      rewrite <- Hc in Horphan.
      assert (∀ next, pcore cmd ∉ survivor_cores (res_cur (reconciled g l)) next)
        as Hunmarked.
      { intros next (q & e & _ & He & Hcore)%survivor_cores_elem.
        by apply (Horphan q e). }
      split_and!; [exact Horphan | exact Hunmarked |].
      intros Hreach os' next Hobs Hnd.
      apply reachable_wf in Hreach.
      assert (wf source_pool g') as Hwf'.
      { split; [apply Hreach|]. by apply reconciled_tidy. }
      destruct Hreach as [Hproc _]. rewrite Hproc in Hpool.
      rewrite (observed_reconcile _ _ _ Hobs), reconcile_eq.
      eexists _, _. split; [reflexivity|]. simpl.
      apply (released_core_allocated source_pool g' next (pcore cmd));
        auto using source_pool_sorted, source_pool_no_sentinel.
Qed.

Lemma repeated_newcomer_witness :
  reachable source_pool (startup source_pool)
  ∧ observe (os_of [100; 300]) = Return [100; 300]
  ∧ NoDup (filter (survivor (old_pid_arr orphan_state)) [100; 300])
  ∧ cycle (os_of [100; 100]) (startup source_pool)
    = Return (orphan_state, [Taskset 1 100; Taskset 2 100])
  ∧ 1 ∈ using_process orphan_state
  ∧ (∀ q e, old_pid_arr orphan_state !! q = Some e → pn e ≠ 1)
  ∧ ∃ g'' issued',
      cycle (os_of [100; 300]) orphan_state = Return (g'', issued')
      ∧ lowest_unused source_pool
          (survivor_cores (old_pid_arr orphan_state) [100; 300])
          (getprocess_num source_pool
             (survivor_cores (old_pid_arr orphan_state) [100; 300])).
Proof.
  assert (NoDup (filter (survivor (old_pid_arr orphan_state)) [100; 300])) as Hnd
    by (apply (bool_decide_unpack _); vm_compute; exact I).
  assert (cycle (os_of [100; 100]) (startup source_pool)
          = Return (orphan_state, [Taskset 1 100; Taskset 2 100])) as Hrun
    by (vm_compute; reflexivity).
  assert (100 ∈ pid_of <$> [Taskset 2 100]) as Hagain by (by left).
  split_and!; [apply reach_startup | reflexivity | exact Hnd | exact Hrun | ..];
    destruct (repeated_newcomer (os_of [100; 100]) (startup source_pool))
      as (map_list & g' & issued & processed & rest
          & _ & Hcycle & _ & _ & _ & _ & _ & Hall);
    rewrite Hrun in Hcycle; injection Hcycle as <- <-;
    destruct (Hall [] (Taskset 1 100) [Taskset 2 100] eq_refl)
      as (_ & Hused & _ & Horphan);
    destruct (Horphan Hagain) as (Hnone & _ & Hnext).
  - exact Hused.
  - exact Hnone.
  - destruct (Hnext (reach_startup _) (os_of [100; 300]) [100; 300] eq_refl Hnd)
      as (g'' & issued' & Hcycle' & Hlow & _).
    exists g'', issued'. split; [exact Hcycle' | exact Hlow].
Defined.

(** C10, as stated, fails twice.  With thirteen new PIDs ahead of it, PID
    200 is listed twice and gets a single command, for the pool is
    exhausted at its second occurrence.  And after a cycle that leaves
    core 1 orphaned, a cycle that lists each of the seven surviving PIDs
    twice has fourteen entries in the in-use list: [getprocess_num]
    returns [-1] and the new PID 200 stays unbound while core 1 is free. *)
Lemma repeated_newcomer_counterexample :
  (∃ g' issued,
     cycle (os_of crowded_observation) (startup source_pool) = Return (g', issued)
     ∧ filter (fun p => p = 200) crowded_observation = [200; 200]
     ∧ filter (fun cmd => pid_of cmd = 200) issued = [Taskset 15 200])
  ∧ cycle (os_of twice_then_six) (startup source_pool)
    = Return (core_one_orphaned,
              [Taskset 1 100; Taskset 2 100; Taskset 3 101; Taskset 4 102;
               Taskset 5 103; Taskset 6 104; Taskset 7 105; Taskset 9 106])
  ∧ getprocess_num source_pool
      (survivor_cores (old_pid_arr core_one_orphaned) seven_twice_and_new) = -1
  ∧ ∃ g'',
      cycle (os_of seven_twice_and_new) core_one_orphaned = Return (g'', [])
      ∧ (1 ∉ using_process g'')
      ∧ old_pid_arr g'' !! 200 = None.
Proof.
  split_and!.
  - eexists _, _. split_and!; vm_compute; reflexivity.
  - vm_compute. reflexivity.
  - vm_compute. reflexivity.
  - eexists. split_and!; [vm_compute; reflexivity | |].
    + apply (bool_decide_unpack _). vm_compute. exact I.
    + vm_compute. reflexivity.
Qed.

(** ** Further properties of the loop *)

Lemma newcomer_pass_stalled pool old l used cur issued :
  getprocess_num pool used = -1 →
  res_using (newcomer_pass pool old l used cur issued) = used
  ∧ res_cur (newcomer_pass pool old l used cur issued) = cur
  ∧ res_issued (newcomer_pass pool old l used cur issued) = issued.
Proof.
  intros Hstop. induction l as [|pid l IH]; [done|].
  cbn [newcomer_pass]. destruct (bool_decide (pid ∉ dom old)); [|exact IH].
  by rewrite Hstop.
Qed.

Lemma newcomer_pass_survivors pool old l used cur issued :
  (∀ p, p ∈ l → survivor old p) →
  res_using (newcomer_pass pool old l used cur issued) = used
  ∧ res_cur (newcomer_pass pool old l used cur issued) = cur
  ∧ res_issued (newcomer_pass pool old l used cur issued) = issued.
Proof.
  induction l as [|pid l IH]; intros Hall; [done|].
  cbn [newcomer_pass]. rewrite bool_decide_eq_false_2.
  - apply IH. intros p Hp. apply Hall. by right.
  - intros Hnew. apply Hnew. apply Hall. by left.
Qed.

Lemma newcomer_pass_skip pool old l1 l2 used cur issued :
  (∀ p, p ∈ l1 → survivor old p) →
  newcomer_pass pool old (l1 ++ l2) used cur issued
  = newcomer_pass pool old l2 used cur issued.
Proof.
  induction l1 as [|pid l1 IH]; intros Hall; [done|].
  cbn [app newcomer_pass]. rewrite bool_decide_eq_false_2.
  - apply IH. intros p Hp. apply Hall. by right.
  - intros Hnew. apply Hnew. apply Hall. by left.
Qed.

(** X1. Whatever the in-use list holds, duplicates and foreign cores
    included, [getprocess_num] answers [-1] or a core of the pool that is
    not in the list: it never hands out a core that is marked in use. *)
Theorem allocator_never_reuses pool used :
  getprocess_num pool used = -1
  ∨ (getprocess_num pool used ∈ pool ∧ getprocess_num pool used ∉ used).
Proof.
  destruct (decide (getprocess_num pool used = -1)) as [?|Hne]; [by left|].
  right. by apply getprocess_num_found.
Qed.

(** X2. Exhaustion stall: when the cores of the observed survivors cover
    the whole pool, the cycle issues no command, the in-use list is that
    of the survivors, and the new dictionary is the old one cut down to the
    observed PIDs, so no newcomer gets an entry. *)
Theorem exhaustion_stall g os map_list :
  observe os = Return map_list →
  exhausted (process_num g) (survivor_cores (old_pid_arr g) map_list) →
  ∃ g',
    cycle os g = Return (g', [])
    ∧ process_num g' = process_num g
    ∧ using_process g' = survivor_cores (old_pid_arr g) map_list
    ∧ ∀ p, old_pid_arr g' !! p
           = if bool_decide (p ∈ map_list) then old_pid_arr g !! p else None.
Proof.
  intros Hobs Hfull. rewrite (observed_reconcile _ _ _ Hobs), reconcile_eq.
  destruct (newcomer_pass_stalled (process_num g) (old_pid_arr g) map_list
              (survivor_cores (old_pid_arr g) map_list)
              (carried (old_pid_arr g) map_list ∅) [])
    as (Hu & Hc & Hi); [by apply getprocess_num_exhausted|].
  unfold reconciled. rewrite Hu, Hc, Hi. eexists. split; [reflexivity|].
  simpl. split_and!; [done | done |]. apply carried_empty_lookup.
Qed.

Lemma exhaustion_stall_witness :
  observe (os_of [100; 101; 102]) = Return [100; 101; 102]
  ∧ exhausted (process_num both_held)
      (survivor_cores (old_pid_arr both_held) [100; 101; 102])
  ∧ ∃ g',
      cycle (os_of [100; 101; 102]) both_held = Return (g', [])
      ∧ process_num g' = process_num both_held
      ∧ using_process g' = survivor_cores (old_pid_arr both_held) [100; 101; 102]
      ∧ ∀ p, old_pid_arr g' !! p
             = if bool_decide (p ∈ [100; 101; 102])
               then old_pid_arr both_held !! p else None.
Proof.
  assert (exhausted (process_num both_held)
            (survivor_cores (old_pid_arr both_held) [100; 101; 102])) as Hfull.
  { intros n [->|[->|[]%elem_of_nil]%elem_of_cons]%elem_of_cons;
      apply (bool_decide_unpack _); vm_compute; exact I. }
  split_and!; [reflexivity | exact Hfull |].
  exact (exhaustion_stall both_held (os_of [100; 101; 102]) [100; 101; 102]
           eq_refl Hfull).
Defined.

(** X3. Steady state: a cycle whose observation holds no new PID issues
    no command and cuts the dictionary down to the observed PIDs; when the
    observation names every PID of the dictionary, the dictionary is left
    as it is. *)
Theorem no_newcomer_no_command g os map_list :
  observe os = Return map_list →
  (∀ p, p ∈ map_list → survivor (old_pid_arr g) p) →
  ∃ g',
    cycle os g = Return (g', [])
    ∧ using_process g' = survivor_cores (old_pid_arr g) map_list
    ∧ (∀ p, old_pid_arr g' !! p
            = if bool_decide (p ∈ map_list) then old_pid_arr g !! p else None)
    ∧ ((∀ p, survivor (old_pid_arr g) p → p ∈ map_list) →
       old_pid_arr g' = old_pid_arr g).
Proof.
  intros Hobs Hall. rewrite (observed_reconcile _ _ _ Hobs), reconcile_eq.
  destruct (newcomer_pass_survivors (process_num g) (old_pid_arr g) map_list
              (survivor_cores (old_pid_arr g) map_list)
              (carried (old_pid_arr g) map_list ∅) [] Hall)
    as (Hu & Hc & Hi).
  unfold reconciled. rewrite Hu, Hc, Hi. eexists. split; [reflexivity|].
  simpl. split_and!; [done | apply carried_empty_lookup |].
  intros Hdom. apply map_eq. intros p. rewrite carried_empty_lookup.
  case_bool_decide as Hp; [done|].
  symmetry. apply not_elem_of_dom. intros Hin. apply Hp. by apply Hdom.
Qed.

Lemma no_newcomer_no_command_witness :
  observe (os_of [101; 100]) = Return [101; 100]
  ∧ (∀ p, p ∈ [101; 100] → survivor (old_pid_arr two_bound) p)
  ∧ (∀ p, survivor (old_pid_arr two_bound) p → p ∈ [101; 100])
  ∧ ∃ g',
      cycle (os_of [101; 100]) two_bound = Return (g', [])
      ∧ using_process g' = [2; 1]
      ∧ old_pid_arr g' = old_pid_arr two_bound.
Proof.
  assert (∀ p, p ∈ [101; 100] → survivor (old_pid_arr two_bound) p) as Hall.
  { intros p [->|[->|[]%elem_of_nil]%elem_of_cons]%elem_of_cons;
      apply (bool_decide_unpack _); vm_compute; exact I. }
  assert (∀ p, survivor (old_pid_arr two_bound) p → p ∈ [101; 100]) as Hdom.
  { intros p [e He]%elem_of_dom. unfold two_bound, dict in He. simpl in He.
    destruct (decide (p = 100)) as [->|H0]; [right; by left|].
    destruct (decide (p = 101)) as [->|H1]; [by left|].
    by rewrite !lookup_insert_ne, lookup_empty in He. }
  split_and!; [reflexivity | exact Hall | exact Hdom |].
  destruct (no_newcomer_no_command two_bound (os_of [101; 100]) [101; 100]
              eq_refl Hall) as (g' & Hcycle & Hu & _ & Hsame).
  exists g'. split_and!; [exact Hcycle | exact Hu | exact (Hsame Hdom)].
Defined.

Lemma first_unused_at a c b used :
  (∀ x, x ∈ a → x ∈ used) → c ∉ used → first_unused (a ++ c :: b) used = c.
Proof.
  induction a as [|x a IH]; intros Ha Hc; simpl.
  - by rewrite bool_decide_eq_false_2.
  - rewrite bool_decide_eq_true_2 by (apply Ha; by left).
    apply IH; [|done]. intros y Hy. apply Ha. by right.
Qed.

(** With the first [k] cores of the pool in use, the next core handed out
    is the one at position [k]. *)
Lemma getprocess_num_prefix pool k c :
  NoDup pool → pool !! k = Some c →
  getprocess_num pool (take k pool) = c.
Proof.
  intros Hnd Hk. pose proof (lookup_lt_Some _ _ _ Hk) as Hlt.
  unfold getprocess_num. rewrite length_take_le by lia.
  destruct (Nat.eqb_spec k (length pool)) as [?|_]; [lia|].
  rewrite <- (take_drop_middle pool k c Hk) at 1.
  apply first_unused_at; [done|].
  rewrite <- (take_drop_middle pool k c Hk) in Hnd.
  apply NoDup_app in Hnd as (_ & Hsep & _).
  intros Hin. apply (Hsep c Hin). by left.
Qed.

Lemma newcomer_pass_fresh pool old l k cur issued :
  NoDup pool → -1 ∉ pool → (∀ p, p ∈ l → newcomer old p) →
  res_issued (newcomer_pass pool old l (take k pool) cur issued)
  = issued ++ zip_with Taskset (drop k pool) l
  ∧ res_using (newcomer_pass pool old l (take k pool) cur issued)
    = take (k + length l) pool
  ∧ res_cur (newcomer_pass pool old l (take k pool) cur issued)
    = bind_all cur (zip_with Taskset (drop k pool) l).
Proof.
  intros Hnd Hsent. revert k cur issued.
  induction l as [|pid l IH]; intros k cur issued Hnew.
  { rewrite zip_with_nil_r, app_nil_r, Nat.add_0_r. done. }
  cbn [newcomer_pass]. rewrite bool_decide_eq_true_2 by (apply Hnew; by left).
  destruct (pool !! k) as [c|] eqn:Hk.
  - rewrite (getprocess_num_prefix pool k c Hnd Hk).
    assert (c ≠ -1) as Hc.
    { intros ->. apply Hsent. by eapply list_elem_of_lookup_2. }
    apply Z.eqb_neq in Hc. rewrite Hc. cbn zeta.
    rewrite <- (take_S_r pool k c Hk).
    destruct (IH (S k) (<[pid := Entry c]> cur) (tastset_pid c pid issued))
      as (Hi & Hu & Hcur); [intros p Hp; apply Hnew; by right|].
    rewrite Hi, Hu, Hcur. rewrite (drop_S pool c k Hk). simpl.
    unfold tastset_pid. rewrite <- app_assoc.
    split_and!; [done | f_equal; lia | done].
  - apply lookup_ge_None in Hk.
    assert (getprocess_num pool (take k pool) = -1) as Hstop.
    { unfold getprocess_num. rewrite take_ge by lia. by rewrite Nat.eqb_refl. }
    rewrite Hstop. simpl. rewrite drop_ge by lia. simpl.
    rewrite app_nil_r, !take_ge by lia. done.
Qed.

Lemma zip_pids pool l p :
  p ∈ pid_of <$> zip_with Taskset pool l → p ∈ l.
Proof.
  revert pool. induction l as [|q l IH]; intros [|c pool]; simpl; try done.
  - intros H. by apply elem_of_nil in H.
  - intros [->|H]%elem_of_cons; [by left|]. right. by eapply IH.
Qed.

Lemma bind_zip_lookup pool l cur i p :
  NoDup l → l !! i = Some p →
  bind_all cur (zip_with Taskset pool l) !! p
  = match pool !! i with
    | Some c => Some (Entry c)
    | None => cur !! p
    end.
Proof.
  revert pool cur i. induction l as [|q l IH]; intros pool cur i Hnd Hi; [done|].
  apply NoDup_cons in Hnd as [Hq Hnd].
  destruct pool as [|c pool].
  { simpl. by destruct i. }
  change (bind_all cur (zip_with Taskset (c :: pool) (q :: l)))
    with (bind_all (<[q := Entry c]> cur) (zip_with Taskset pool l)).
  destruct i as [|i]; simpl in *.
  - injection Hi as ->. rewrite bind_all_lookup_other.
    + apply lookup_insert_eq.
    + intros Hin. apply Hq. by eapply zip_pids.
  - rewrite (IH pool _ i Hnd Hi). destruct (pool !! i); [done|].
    apply lookup_insert_ne. intros ->. apply Hq. by eapply list_elem_of_lookup_2.
Qed.

(** A cycle that observes new PIDs only. *)
Lemma fresh_cycle g map_list :
  NoDup (process_num g) → -1 ∉ process_num g →
  (∀ p, p ∈ map_list → newcomer (old_pid_arr g) p) →
  res_issued (reconciled g map_list) = zip_with Taskset (process_num g) map_list
  ∧ res_using (reconciled g map_list) = take (length map_list) (process_num g)
  ∧ res_cur (reconciled g map_list)
    = bind_all ∅ (zip_with Taskset (process_num g) map_list).
Proof.
  intros Hnd Hsent Hnew. unfold reconciled.
  assert (survivor_cores (old_pid_arr g) map_list = []) as ->.
  { destruct (survivor_cores (old_pid_arr g) map_list) as [|c ?] eqn:Hs; [done|].
    assert (c ∈ survivor_cores (old_pid_arr g) map_list) as Hc
      by (rewrite Hs; by left).
    apply survivor_cores_elem in Hc as (p & e & Hp & He & _).
    destruct (Hnew p Hp). apply elem_of_dom. eauto. }
  assert (carried (old_pid_arr g) map_list ∅ = ∅) as ->.
  { apply map_eq. intros p. rewrite carried_empty_lookup, lookup_empty.
    case_bool_decide as Hp; [|done]. apply not_elem_of_dom. by apply Hnew. }
  exact (newcomer_pass_fresh (process_num g) (old_pid_arr g) map_list 0 ∅ []
           Hnd Hsent Hnew).
Qed.

(** X4. Complete turnover: when none of the observed PIDs is in the
    dictionary (the first cycle, or every process replaced), the cycle
    binds the observed PIDs to the cores of the pool position by position,
    as far as the shorter of the two lists reaches; the in-use list is that
    prefix of the pool; and if no PID is listed twice, the PID at position
    [i] holds the pool core at position [i], or nothing beyond the pool. *)
Theorem fresh_pids_bound_in_pool_order g os map_list :
  NoDup (process_num g) → -1 ∉ process_num g →
  observe os = Return map_list →
  (∀ p, p ∈ map_list → newcomer (old_pid_arr g) p) →
  ∃ g',
    cycle os g = Return (g', zip_with Taskset (process_num g) map_list)
    ∧ using_process g' = take (length map_list) (process_num g)
    ∧ (∀ p, p ∉ map_list → old_pid_arr g' !! p = None)
    ∧ (NoDup map_list → ∀ i p, map_list !! i = Some p →
         old_pid_arr g' !! p = Entry <$> process_num g !! i).
Proof.
  intros Hnd Hsent Hobs Hnew.
  rewrite (observed_reconcile _ _ _ Hobs), reconcile_eq.
  destruct (fresh_cycle g map_list Hnd Hsent Hnew) as (-> & -> & ->).
  eexists. split; [reflexivity|]. simpl. split_and!; [done | |].
  - intros p Hp. rewrite bind_all_lookup_other; [done|].
    intros Hin. apply Hp. by eapply zip_pids.
  - intros Hndl i p Hi. rewrite (bind_zip_lookup _ _ _ i) by done.
    by destruct (process_num g !! i).
Qed.

Lemma fresh_pids_bound_in_pool_order_witness :
  NoDup (process_num (startup source_pool))
  ∧ (-1 ∉ process_num (startup source_pool))
  ∧ observe (os_of [300; 301]) = Return [300; 301]
  ∧ (∀ p, p ∈ [300; 301] → newcomer (old_pid_arr (startup source_pool)) p)
  ∧ NoDup [300; 301]
  ∧ ∃ g',
      cycle (os_of [300; 301]) (startup source_pool)
      = Return (g', [Taskset 1 300; Taskset 2 301])
      ∧ using_process g' = [1; 2]
      ∧ old_pid_arr g' !! 301 = Some (Entry 2).
Proof.
  assert (NoDup (process_num (startup source_pool))) as Hnd
    by (apply (bool_decide_unpack _); vm_compute; exact I).
  assert (-1 ∉ process_num (startup source_pool)) as Hsent
    by (apply (bool_decide_unpack _); vm_compute; exact I).
  assert (∀ p, p ∈ [300; 301] → newcomer (old_pid_arr (startup source_pool)) p)
    as Hnew.
  { intros p _. unfold newcomer. simpl. rewrite dom_empty_L. apply not_elem_of_empty. }
  assert (NoDup [300; 301]) as Hndl
    by (apply (bool_decide_unpack _); vm_compute; exact I).
  split_and!; [exact Hnd | exact Hsent | reflexivity | exact Hnew | exact Hndl |].
  destruct (fresh_pids_bound_in_pool_order (startup source_pool) (os_of [300; 301])
              [300; 301] Hnd Hsent eq_refl Hnew)
    as (g' & Hcycle & Hu & _ & Hpos).
  exists g'. split_and!; [exact Hcycle | exact Hu |].
  exact (Hpos Hndl 1%nat 301 eq_refl).
Defined.

(** X5. An empty observed list costs every binding: reconciling it
    empties the dictionary and the in-use list and issues no command, and
    reconciling any list after that binds it in pool order, whichever cores
    its PIDs held before. *)
Theorem blackout_then_rebind g map_list :
  NoDup (process_num g) → -1 ∉ process_num g →
  reconcile g [] = Return (startup (process_num g), [])
  ∧ ∃ g',
      reconcile (startup (process_num g)) map_list
      = Return (g', zip_with Taskset (process_num g) map_list)
      ∧ using_process g' = take (length map_list) (process_num g).
Proof.
  intros Hnd Hsent. split; [reflexivity|].
  rewrite reconcile_eq.
  destruct (fresh_cycle (startup (process_num g)) map_list Hnd Hsent)
    as (-> & -> & _).
  - intros p _. unfold newcomer. simpl. rewrite dom_empty_L.
    apply not_elem_of_empty.
  - eexists. split; reflexivity.
Qed.

Lemma blackout_then_rebind_witness :
  NoDup (process_num two_bound) ∧ (-1 ∉ process_num two_bound)
  ∧ reconcile two_bound [] = Return (startup source_pool, [])
  ∧ ∃ g',
      reconcile (startup source_pool) [101; 100]
      = Return (g', [Taskset 1 101; Taskset 2 100])
      ∧ using_process g' = [1; 2].
Proof.
  assert (NoDup (process_num two_bound)) as Hnd
    by (apply (bool_decide_unpack _); vm_compute; exact I).
  assert (-1 ∉ process_num two_bound) as Hsent
    by (apply (bool_decide_unpack _); vm_compute; exact I).
  split_and!; [exact Hnd | exact Hsent | ..];
    apply (blackout_then_rebind two_bound [101; 100] Hnd Hsent).
Defined.

Lemma held_cores_bounded pool (m : gmap Z entry) :
  injective_on_cores m → (∀ p e, m !! p = Some e → pn e ∈ pool) →
  (size m ≤ length pool)%nat.
Proof.
  intros Hinj Hpool. rewrite <- length_map_to_list.
  rewrite <- (length_fmap (fun kv : Z * entry => pn kv.2)).
  apply submseteq_length, NoDup_submseteq.
  - apply NoDup_fmap_2_strong; [|apply NoDup_map_to_list].
    intros [p e] [q e'] Hp%elem_of_map_to_list Hq%elem_of_map_to_list Heq.
    simpl in Heq. assert (p = q) as -> by exact (Hinj _ _ _ _ Hp Hq Heq).
    f_equal. congruence.
  - intros c ([p e] & -> & Hp%elem_of_map_to_list)%list_elem_of_fmap.
    simpl. eauto.
Qed.

(** X6. Capacity: in every state the program reaches the dictionary holds
    at most as many PIDs as the pool has cores, and no cycle issues more
    commands than the pool has cores. *)
Theorem capacity_never_exceeded pool g :
  reachable pool g →
  (size (old_pid_arr g) ≤ length pool)%nat
  ∧ ∀ os, ∃ g' issued,
      cycle os g = Return (g', issued) ∧ (length issued ≤ length pool)%nat.
Proof.
  intros [Hp [Hheld Hinj Hpool]]%reachable_wf. split.
  - apply held_cores_bounded; eauto.
  - intros os. rewrite cycle_eq, reconcile_eq. eexists _, _. split; [reflexivity|].
    destruct (reconciled_trace g (contribution os "cc1plus" ++ contribution os "cc1"))
      as (processed & new & _ & -> & _ & _ & _ & Ha & _).
    rewrite <- (length_fmap pcore). apply submseteq_length, NoDup_submseteq.
    + by eapply allocs_cores_NoDup.
    + intros c Hc. destruct (allocs_fresh _ _ _ _ Ha Hc) as (Hin & _).
      by rewrite <- Hp.
Qed.

Lemma capacity_never_exceeded_witness :
  reachable source_pool two_bound
  ∧ (size (old_pid_arr two_bound) ≤ length source_pool)%nat
  ∧ ∀ os, ∃ g' issued,
      cycle os two_bound = Return (g', issued)
      ∧ (length issued ≤ length source_pool)%nat.
Proof.
  assert (reachable source_pool two_bound) as Hr.
  { one_cycle [100; 101] ltac:(apply reach_startup). }
  split; [exact Hr|]. exact (capacity_never_exceeded source_pool two_bound Hr).
Defined.

(** X7. The dictionary and the in-use list record what the cycle did and
    nothing else: the in-use list is the cores of the observed survivors,
    in the order observed, followed by the cores of the commands, in the
    order issued; a command is issued only for an observed PID that was
    not in the old dictionary, and that PID then has an entry; and every
    entry of the new dictionary is an old entry of an observed PID or
    carries the core of a command issued for its PID. *)
Theorem entries_backed_by_commands os g :
  ∃ map_list g' issued,
    observe os = Return map_list
    ∧ cycle os g = Return (g', issued)
    ∧ using_process g'
      = survivor_cores (old_pid_arr g) map_list ++ (pcore <$> issued)
    ∧ (∀ p, p ∈ pid_of <$> issued →
         newcomer (old_pid_arr g) p ∧ p ∈ map_list
         ∧ is_Some (old_pid_arr g' !! p))
    ∧ (∀ p e, old_pid_arr g' !! p = Some e →
         (p ∈ map_list ∧ old_pid_arr g !! p = Some e)
         ∨ (newcomer (old_pid_arr g) p ∧ Taskset (pn e) p ∈ issued)).
Proof.
  rewrite cycle_eq, observe_eq, reconcile_eq.
  set (l := contribution os "cc1plus" ++ contribution os "cc1").
  destruct (reconciled_trace g l)
    as (processed & new & Hl & Hi & Hu & Hc & Hp & Ha & Hr).
  eexists l, _, _. do 2 (split; [reflexivity|]). simpl. rewrite Hi, Hu, Hc.
  split_and!; [done | |].
  - intros p Hin.
    destruct (new_pids_are_newcomers _ _ _ _ Hp Hin) as [Hnew Hproc].
    split_and!; [done | |].
    + rewrite Hl. apply elem_of_app. by left.
    + apply bind_all_is_Some. by right.
  - intros p e He.
    apply bind_all_lookup_inv in He as [[_ He]|(n1 & cmd & n2 & Hn & <- & _ & ->)].
    + left. revert He. rewrite carried_empty_lookup. by case_bool_decide.
    + right.
      assert (cmd ∈ new) as Hcmd by (rewrite Hn; apply elem_of_app; right; by left).
      split.
      * eapply (new_pids_are_newcomers _ _ _ _ Hp). by apply list_elem_of_fmap_2.
      * simpl. by destruct cmd.
Qed.

(** X8. A free core goes to the first new PID: in a reachable state of a
    program whose pool is ascending and free of [-1], if the observation
    lists no survivor twice and the survivors leave a core of the pool
    unused, the first command of the cycle binds the first new PID of the
    observation to the lowest unused core. *)
Theorem first_newcomer_gets_lowest_free pool g os l1 q l2 c0 :
  StronglySorted Z.lt pool → -1 ∉ pool →
  reachable pool g →
  observe os = Return (l1 ++ q :: l2) →
  (∀ p, p ∈ l1 → survivor (old_pid_arr g) p) →
  newcomer (old_pid_arr g) q →
  NoDup (filter (survivor (old_pid_arr g)) (l1 ++ q :: l2)) →
  c0 ∈ pool → c0 ∉ survivor_cores (old_pid_arr g) (l1 ++ q :: l2) →
  ∃ g' c rest,
    cycle os g = Return (g', Taskset c q :: rest)
    ∧ lowest_unused pool (survivor_cores (old_pid_arr g) (l1 ++ q :: l2)) c.
Proof.
  intros Hs Hsent Hr%reachable_wf Hobs Hsurv Hnew Hnd Hc0 Hfree.
  destruct Hr as [Hp [Hheld Hinj Hpool]].
  rewrite (observed_reconcile _ _ _ Hobs), reconcile_eq.
  set (l := l1 ++ q :: l2) in *.
  set (used := survivor_cores (old_pid_arr g) l) in *.
  assert (NoDup used) as Hndu by by apply survivor_cores_NoDup.
  assert (∀ x, x ∈ used → x ∈ pool) as Hsub.
  { intros x (p & e & _ & He & <-)%survivor_cores_elem. eauto. }
  destruct (getprocess_num_lowest pool used c0) as (_ & Hin & Hout & _); try done.
  assert (lowest_unused pool used (getprocess_num pool used)) as Hlow.
  { split_and!; try done. intros m Hm Hm'.
    by destruct (getprocess_num_lowest pool used m) as (_ & _ & _ & ?). }
  assert (getprocess_num pool used ≠ -1) as Hne by (intros Heq; by rewrite Heq in Hin).
  unfold reconciled. fold used. subst l. rewrite Hp.
  rewrite (newcomer_pass_skip pool (old_pid_arr g) l1 (q :: l2)) by done.
  cbn [newcomer_pass]. rewrite bool_decide_eq_true_2 by done.
  apply Z.eqb_neq in Hne. rewrite Hne. cbn zeta.
  destruct (newcomer_pass_trace pool (old_pid_arr g) l2
              (used ++ [getprocess_num pool used])
              (<[q := Entry (getprocess_num pool used)]>
                 (carried (old_pid_arr g) (l1 ++ q :: l2) ∅))
              (tastset_pid (getprocess_num pool used) q []))
    as (processed & new & _ & Hi & _).
  rewrite Hi. eexists _, (getprocess_num pool used), new.
  split; [reflexivity | exact Hlow].
Qed.

Lemma first_newcomer_gets_lowest_free_witness :
  StronglySorted Z.lt source_pool ∧ (-1 ∉ source_pool)
  ∧ reachable source_pool two_bound
  ∧ observe (os_of [101; 102; 103]) = Return ([101] ++ 102 :: [103])
  ∧ (∀ p, p ∈ [101] → survivor (old_pid_arr two_bound) p)
  ∧ newcomer (old_pid_arr two_bound) 102
  ∧ NoDup (filter (survivor (old_pid_arr two_bound)) ([101] ++ 102 :: [103]))
  ∧ 1 ∈ source_pool
  ∧ (1 ∉ survivor_cores (old_pid_arr two_bound) ([101] ++ 102 :: [103]))
  ∧ ∃ g' c rest,
      cycle (os_of [101; 102; 103]) two_bound = Return (g', Taskset c 102 :: rest)
      ∧ lowest_unused source_pool
          (survivor_cores (old_pid_arr two_bound) ([101] ++ 102 :: [103])) c.
Proof.
  assert (reachable source_pool two_bound) as Hr.
  { one_cycle [100; 101] ltac:(apply reach_startup). }
  assert (∀ p, p ∈ [101] → survivor (old_pid_arr two_bound) p) as Hsurv.
  { intros p [->|[]%elem_of_nil]%elem_of_cons.
    apply (bool_decide_unpack _); vm_compute; exact I. }
  assert (newcomer (old_pid_arr two_bound) 102) as Hnew
    by (apply (bool_decide_unpack _); vm_compute; exact I).
  assert (NoDup (filter (survivor (old_pid_arr two_bound)) ([101] ++ 102 :: [103])))
    as Hnd by (apply (bool_decide_unpack _); vm_compute; exact I).
  assert (1 ∈ source_pool) as Hin
    by (apply (bool_decide_unpack _); vm_compute; exact I).
  assert (1 ∉ survivor_cores (old_pid_arr two_bound) ([101] ++ 102 :: [103]))
    as Hfree by (apply (bool_decide_unpack _); vm_compute; exact I).
  split_and!; [exact source_pool_sorted | exact source_pool_no_sentinel | exact Hr
              | reflexivity | exact Hsurv | exact Hnew | exact Hnd | exact Hin
              | exact Hfree |].
  exact (first_newcomer_gets_lowest_free source_pool two_bound (os_of [101; 102; 103])
           [101] 102 [103] 1 source_pool_sorted source_pool_no_sentinel Hr
           eq_refl Hsurv Hnew Hnd Hin Hfree).
Defined.

(** ** The text of the lookups and of the commands *)

Lemma sapp_cons a s t : String a s +:+ t = String a (s +:+ t).
Proof. reflexivity. Qed.

Lemma sapp_nil_l s : "" +:+ s = s.
Proof. reflexivity. Qed.

Lemma sapp_nil_r s : s +:+ "" = s.
Proof. induction s as [|a s IH]; [done|]. by rewrite sapp_cons, IH. Qed.

Lemma sapp_assoc s t u : (s +:+ t) +:+ u = s +:+ t +:+ u.
Proof. induction s as [|a s IH]; [done|]. by rewrite !sapp_cons, IH. Qed.

Lemma all_chars_app P s t :
  all_chars P (s +:+ t) = all_chars P s && all_chars P t.
Proof.
  induction s as [|a s IH]; [done|].
  rewrite sapp_cons. simpl. by rewrite IH, andb_assoc.
Qed.

Lemma all_chars_impl (P Q : Ascii.ascii → bool) s :
  (∀ a, P a = true → Q a = true) → all_chars P s = true → all_chars Q s = true.
Proof.
  intros HPQ. induction s as [|a s IH]; [done|]. simpl.
  intros [Ha Hs]%andb_true_iff. rewrite (HPQ a Ha). by apply IH.
Qed.

Lemma split_from_word w word s :
  all_chars not_space w = true →
  split_from word (w +:+ s) = split_from (word +:+ w) s.
Proof.
  revert word. induction w as [|a w IH]; intros word Hw.
  - by rewrite sapp_nil_r.
  - simpl in Hw. apply andb_true_iff in Hw as [Ha Hw].
    rewrite sapp_cons. simpl. unfold not_space in Ha.
    apply negb_true_iff in Ha. rewrite Ha, (IH _ Hw).
    by rewrite sapp_assoc.
Qed.

Lemma split_from_blank word s :
  all_chars is_space s = true →
  split_from word s = match word with EmptyString => [] | _ => [word] end.
Proof.
  revert word. induction s as [|a s IH]; intros word Hs; [done|].
  simpl in *. apply andb_true_iff in Hs as [Ha Hs]. rewrite Ha.
  rewrite (IH "" Hs). by destruct word.
Qed.

Lemma split_from_space a word s :
  is_space a = true →
  split_from word (String a s)
  = match word with
    | EmptyString => split_from "" s
    | _ => word :: split_from "" s
    end.
Proof. intros Ha. simpl. by rewrite Ha. Qed.

(** Splitting undoes joining with single blanks, whatever white space
    follows the last token. *)
Lemma split_concat ts ws :
  Forall is_token ts → all_chars is_space ws = true →
  py_split (String.concat " " ts +:+ ws) = ts.
Proof.
  intros Hts Hws. unfold py_split.
  induction Hts as [|t ts [Hne Ht] Hts IH].
  - change (String.concat " " [] +:+ ws) with ws.
    by rewrite (split_from_blank "" ws Hws).
  - destruct ts as [|t' ts].
    + change (String.concat " " [t]) with t.
      rewrite (split_from_word t "" ws Ht), sapp_nil_l.
      rewrite (split_from_blank _ ws Hws). by destruct t.
    + change (String.concat " " (t :: t' :: ts))
        with (t +:+ " " +:+ String.concat " " (t' :: ts)).
      rewrite sapp_assoc, (split_from_word t "" _ Ht), sapp_nil_l.
      rewrite sapp_assoc, sapp_cons, sapp_nil_l.
      rewrite split_from_space by reflexivity. rewrite IH. by destruct t.
Qed.

Lemma uint_digits d :
  all_chars is_digit (DecimalString.NilEmpty.string_of_uint d) = true.
Proof. induction d; simpl; auto. Qed.

Lemma str_int_chars n : all_chars number_char (str_int n) = true.
Proof.
  assert (∀ d, all_chars number_char (DecimalString.NilZero.string_of_uint d) = true)
    as Hd.
  { intros d. apply (all_chars_impl is_digit).
    - intros a Ha. unfold number_char. by rewrite Ha.
    - destruct d; try apply uint_digits. reflexivity. }
  unfold str_int. destruct (Z.to_int n); simpl; [apply Hd|].
  apply Hd.
Qed.

Lemma str_int_parses n :
  DecimalString.NilZero.int_of_string (str_int n) = Some (Z.to_int n).
Proof.
  apply DecimalString.NilZero.isi; destruct n; simpl; try discriminate;
    intros [= H]; by apply DecimalPos.Unsigned.to_uint_nonnil in H.
Qed.

Lemma str_int_token n : is_token (str_int n).
Proof.
  split.
  - intros Hn. pose proof (str_int_parses n) as H. by rewrite Hn in H.
  - apply (all_chars_impl number_char); [|apply str_int_chars].
    intros a. destruct a as [[] [] [] [] [] [] [] []]; by vm_compute.
Qed.

Lemma py_int_str n : py_int (str_int n) = Return n.
Proof.
  pose proof (str_int_parses n) as Hp. pose proof (str_int_chars n) as Hc.
  unfold py_int. destruct (str_int n) as [|a rest]; [done|].
  simpl in Hc. apply andb_true_iff in Hc as [Ha _].
  destruct (Ascii.eqb_spec a "+") as [->|_]; [done|].
  by rewrite Hp, DecimalZ.of_to.
Qed.

Lemma map_int_str pids : map_int (str_int <$> pids) = Return pids.
Proof.
  induction pids as [|p pids IH]; [done|].
  rewrite fmap_cons. cbn [map_int]. by rewrite py_int_str, IH.
Qed.

Lemma py_int_raises tok e : py_int tok = Raise e → e = ValueError.
Proof.
  unfold py_int. destruct tok as [|a rest]; [by intros [= <-]|].
  destruct (Ascii.eqb a "+").
  - destruct (DecimalString.NilZero.uint_of_string rest); [done | by intros [= <-]].
  - destruct (DecimalString.NilZero.int_of_string (String a rest));
      [done | by intros [= <-]].
Qed.

Lemma map_int_bad toks tok :
  tok ∈ toks → py_int tok = Raise ValueError → map_int toks = Raise ValueError.
Proof.
  intros Hin Hbad. induction toks as [|t toks IH]; [by apply elem_of_nil in Hin|].
  cbn [map_int]. destruct (py_int t) as [n|e] eqn:Ht.
  - apply elem_of_cons in Hin as [->|Hin]; [congruence|].
    by rewrite (IH Hin).
  - by rewrite (py_int_raises _ _ Ht).
Qed.

(** X9. Reading back what [pidof] writes: when the lookup's output is
    the decimal PIDs with a blank between them and a line feed at the end,
    [get_pid] returns exactly those PIDs, in that order. *)
Theorem get_pid_reads_pidof_line sh name pids :
  sh name = Return (pidof_line pids) →
  get_pid (parsed sh) name = Return pids.
Proof.
  intros Hout. unfold get_pid, parsed, get_pid_text. rewrite Hout.
  change (map_int (py_split (pidof_line pids)) = Return pids).
  unfold pidof_line. rewrite split_concat; [apply map_int_str | | done].
  apply Forall_fmap, Forall_forall. intros n _. apply str_int_token.
Qed.

Lemma get_pid_reads_pidof_line_witness :
  shell_of (pidof_line [4711; 12; 3]) "cc1" = Return (pidof_line [4711; 12; 3])
  ∧ get_pid (parsed (shell_of (pidof_line [4711; 12; 3]))) "cc1"
    = Return [4711; 12; 3].
Proof.
  split; [reflexivity|].
  exact (get_pid_reads_pidof_line (shell_of (pidof_line [4711; 12; 3]))
           "cc1" [4711; 12; 3] eq_refl).
Defined.

(** X10. An output of white space only (or no output at all) is not an
    error: [get_pid] returns the empty list. *)
Theorem get_pid_blank_output sh name out :
  sh name = Return out → all_chars is_space out = true →
  get_pid (parsed sh) name = Return [].
Proof.
  intros Hout Hblank. unfold get_pid, parsed, get_pid_text. rewrite Hout.
  change (map_int (py_split out) = Return []).
  unfold py_split. by rewrite (split_from_blank "" out Hblank).
Qed.

Lemma get_pid_blank_output_witness :
  shell_of (String "010"%char "") "cc1" = Return (String "010"%char "")
  ∧ all_chars is_space (String "010"%char "") = true
  ∧ get_pid (parsed (shell_of (String "010"%char ""))) "cc1" = Return [].
Proof.
  split_and!; [reflexivity | reflexivity |].
  exact (get_pid_blank_output (shell_of (String "010"%char "")) "cc1"
           (String "010"%char "") eq_refl eq_refl).
Defined.

(** X11. One bad token loses the whole lookup: when a token of the output
    is not a number, [get_pid] raises [ValueError], whatever the other
    tokens are, and the observation takes nothing from that name. *)
Theorem bad_token_loses_lookup sh name out tok :
  sh name = Return out →
  tok ∈ py_split out → py_int tok = Raise ValueError →
  get_pid (parsed sh) name = Raise ValueError
  ∧ contribution (parsed sh) name = [].
Proof.
  intros Hout Hin Hbad.
  assert (get_pid (parsed sh) name = Raise ValueError) as Hraise.
  { unfold get_pid, parsed, get_pid_text. rewrite Hout.
    change (map_int (py_split out) = Raise ValueError).
    by apply (map_int_bad _ tok). }
  split; [done|]. unfold contribution. by rewrite Hraise.
Qed.

Lemma bad_token_loses_lookup_witness :
  shell_of "12 x3 45" "cc1" = Return "12 x3 45"
  ∧ "x3" ∈ py_split "12 x3 45"
  ∧ py_int "x3" = Raise ValueError
  ∧ get_pid (parsed (shell_of "12 x3 45")) "cc1" = Raise ValueError
  ∧ contribution (parsed (shell_of "12 x3 45")) "cc1" = [].
Proof.
  assert ("x3" ∈ py_split "12 x3 45") as Hin
    by (apply (bool_decide_unpack _); vm_compute; exact I).
  split_and!; [reflexivity | exact Hin | reflexivity | ..];
    apply (bad_token_loses_lookup (shell_of "12 x3 45") "cc1" "12 x3 45" "x3"
             eq_refl Hin eq_refl).
Defined.

Lemma command_line_joined c :
  command_line c
  = String.concat " " ["taskset"; "-pc"; str_int (pcore c); str_int (pid_of c)]
    +:+ "".
Proof. by rewrite sapp_nil_r. Qed.

Lemma command_line_split c :
  py_split (command_line c)
  = ["taskset"; "-pc"; str_int (pcore c); str_int (pid_of c)].
Proof.
  rewrite command_line_joined. apply split_concat; [|done].
  constructor; [split; [done | reflexivity]|].
  constructor; [split; [done | reflexivity]|].
  constructor; [apply str_int_token|].
  constructor; [apply str_int_token|]. constructor.
Qed.

(** X12. The command line reads back: [split()] cuts it into exactly the
    four words [taskset], [-pc], the core and the PID; [int] of the last
    two gives back the core and the PID; so two commands with the same
    text bind the same PID to the same core. *)
Theorem command_line_reads_back c :
  py_split (command_line c)
  = ["taskset"; "-pc"; str_int (pcore c); str_int (pid_of c)]
  ∧ map_int (drop 2 (py_split (command_line c))) = Return [pcore c; pid_of c]
  ∧ ∀ c', command_line c' = command_line c → c' = c.
Proof.
  assert (∀ d, map_int (drop 2 (py_split (command_line d)))
               = Return [pcore d; pid_of d]) as Hback.
  { intros d. rewrite command_line_split. exact (map_int_str [pcore d; pid_of d]). }
  split_and!; [apply command_line_split | apply Hback |].
  intros c' Heq. pose proof (Hback c') as H'. rewrite Heq, Hback in H'.
  destruct c, c'. simpl in H'. by injection H' as -> ->.
Qed.

(** X13. Whatever the core and the PID, negative ones included, the
    command line handed to the shell is made of lower-case letters,
    digits, minus signs and blanks only. *)
Theorem command_line_plain c : all_chars plain_char (command_line c) = true.
Proof.
  assert (∀ n, all_chars plain_char (str_int n) = true) as Hn.
  { intros n. apply (all_chars_impl number_char); [|apply str_int_chars].
    intros a Ha. unfold plain_char, number_char in *.
    apply orb_true_iff in Ha as [Ha | Ha]; rewrite Ha; [done|]. by rewrite orb_true_r. }
  unfold command_line. rewrite !all_chars_app, !Hn. reflexivity.
Qed.

(** ** Runs of the model *)

(** Fifteen newcomers for fourteen cores: the last one is cut off. *)
Example fifteen_newcomers :
  let r := reconciled (startup source_pool)
             [100; 101; 102; 103; 104; 105; 106; 107;
              108; 109; 110; 111; 112; 113; 114] in
  res_rest r = [114]
  ∧ pcore <$> res_issued r = source_pool
  ∧ res_cur r !! 113 = Some (Entry 15)
  ∧ res_cur r !! 114 = None.
Proof. vm_compute. auto. Qed.

(** The second scenario of the specification: two cores, three PIDs. *)
Example scenario_two_cores :
  cycle (os_of [100; 101; 102]) (startup [1; 2])
  = Return ({| process_num := [1; 2];
               using_process := [1; 2];
               old_pid_arr := dict [(100, 1); (101, 2)] |},
            [Taskset 1 100; Taskset 2 101])
  ∧ cycle (os_of [101; 102])
      {| process_num := [1; 2];
         using_process := [1; 2];
         old_pid_arr := dict [(100, 1); (101, 2)] |}
    = Return ({| process_num := [1; 2];
                 using_process := [2; 1];
                 old_pid_arr := dict [(101, 2); (102, 1)] |},
              [Taskset 1 102]).
Proof. split; vm_compute; reflexivity. Qed.

(** A newcomer listed twice takes two cores and keeps the second. *)
Example newcomer_listed_twice :
  cycle (os_of [100; 100; 101]) (startup source_pool)
  = Return ({| process_num := source_pool;
               using_process := [1; 2; 3];
               old_pid_arr := dict [(100, 2); (101, 3)] |},
            [Taskset 1 100; Taskset 2 100; Taskset 3 101]).
Proof. vm_compute. reflexivity. Qed.
